(** * arr.h: slices and the variable-size array [cc0::array<type_t,0>]

    A shallow embedding of the slice and of the dynamically sized array of
    [arr.h], over an explicit heap of element blocks and an explicit store
    of array objects, so that two references to one object ([c = c],
    [c = move(c)]) are one location of the store. *)

From stdpp Require Import gmap list.
From Stdlib Require Import ZArith Lia.

Local Open Scope Z_scope.

(** ** Machine integers *)

(** [uint64_t]: an integer in [[0, 2^64)]; arithmetic wraps. *)
Definition uint64_max : Z := 2 ^ 64.
Definition is_uint64 (n : Z) : Prop := 0 <= n < uint64_max.
Definition wrap64 (n : Z) : Z := n mod uint64_max.

(** ** Pointers and the heap *)

(** A block of the heap is named by a location; an element pointer is
    null or a block together with an element offset into it. *)
Definition loc := positive.

Inductive ptr : Type :=
| nullptr
| addr (l : loc) (off : Z).

Global Instance ptr_eq_dec : EqDecision ptr.
Proof. solve_decision. Defined.

(** [p + n] on element pointers.  Arithmetic on the null pointer is
    undefined in the source language for [n <> 0]; it is kept null here. *)
Definition ptr_add (p : ptr) (n : Z) : ptr :=
  match p with
  | nullptr => nullptr
  | addr l off => addr l (off + n)
  end.

Section Memory.
Context {T : Type}.

(** [p[i]] as an rvalue; [None] outside every live block. *)
Definition read (h : gmap loc (list T)) (p : ptr) (i : Z) : option T :=
  match p with
  | nullptr => None
  | addr l off =>
      match h !! l with
      | Some b => if 0 <=? off + i then b !! Z.to_nat (off + i) else None
      | None => None
      end
  end.

(** [p[i] = v]; [None] outside every live block. *)
Definition write (h : gmap loc (list T)) (p : ptr) (i : Z) (v : T)
  : option (gmap loc (list T)) :=
  match p with
  | nullptr => None
  | addr l off =>
      match h !! l with
      | Some b =>
          if (0 <=? off + i) && (off + i <? Z.of_nat (length b))
          then Some (<[l := <[Z.to_nat (off + i) := v]> b]> h)
          else None
      | None => None
      end
  end.
End Memory.

(** ** Slices *)

Module Slice.
Section Slice.
Context {T : Type}.

(** [class slice]: a borrowed pointer and an element count. *)
Record slice : Type := mk { m_values : ptr; m_size : Z }.

(** [slice( void )] *)
Definition default : slice := mk nullptr 0.

(** [slice(type2_t *values, uint64_t size)] *)
Definition of_ptr (values : ptr) (size : Z) : slice := mk values size.

(** [uint64_t size( void ) const] *)
Definition size (s : slice) : Z := m_size s.

(** [operator type_t*( void )] *)
Definition to_ptr (s : slice) : ptr := m_values s.

(** [void release( void )] *)
Definition release (s : slice) : slice := mk nullptr 0.

(** [slice<type_t> operator()(uint64_t start, uint64_t end)]:
    [slice<type_t>(m_values + start, (end - start))]. *)
Definition narrow (s : slice) (start end_ : Z) : slice :=
  of_ptr (ptr_add (m_values s) start) (wrap64 (end_ - start)).

(** [s[i]]: the slice decays to its pointer, which is then indexed. *)
Definition at_ (h : gmap loc (list T)) (s : slice) (i : Z) : option T :=
  read h (to_ptr s) i.

(** The slice's validity contract: null and empty, or inside one block. *)
Definition valid (h : gmap loc (list T)) (s : slice) : Prop :=
  match m_values s with
  | nullptr => m_size s = 0
  | addr l off =>
      exists b, h !! l = Some b /\ 0 <= off /\ 0 <= m_size s
                /\ off + m_size s <= Z.of_nat (length b)
  end.

(** [slice<type_t> view(type2_t *values, uint64_t start, uint64_t end)] *)
Definition view (values : ptr) (start end_ : Z) : slice :=
  of_ptr (ptr_add values start) (wrap64 (end_ - start)).

(** [slice<type_t> view(type2_t *values, uint64_t count)] *)
Definition view_count (values : ptr) (count : Z) : slice :=
  of_ptr values count.

(** [s[i] = v]: the slice decays to its pointer, which is then indexed. *)
Definition set_at (h : gmap loc (list T)) (s : slice) (i : Z) (v : T)
  : option (gmap loc (list T)) :=
  write h (to_ptr s) i v.

(** The loop of [fill], [k] iterations from index [i], with the body
    [slice[i] = value].  The body does not write the slice itself, so the
    loop started at 0 runs [slice.size()] times. *)
Fixpoint fill_loop (s : slice) (value : T) (i : Z) (k : nat)
  (h : gmap loc (list T)) : option (gmap loc (list T)) :=
  match k with
  | O => Some h
  | S k' =>
      match set_at h s i value with
      | Some h' => fill_loop s value (i + 1) k' h'
      | None => None
      end
  end.

(** [void fill(slice<type_t> &slice, const type_t &value)] *)
Definition fill (s : slice) (value : T) (h : gmap loc (list T))
  : option (gmap loc (list T)) :=
  fill_loop s value 0 (Z.to_nat (size s)) h.
End Slice.
Arguments slice : clear implicits.
End Slice.

(** ** The fixed-size array *)

Module FixedArray.
Section FixedArray.
Context {T : Type}.

(** [size_u], the template parameter. *)
Variable size_u : Z.

(** [class array<type_t,size_u>] has the one member [type_t
    m_values[size_u]]: an object is the block that stores its elements,
    and [m_values] decays to the start of that block. *)
Definition m_values (a : loc) : ptr := addr a 0.

(** The blocks that can store such an array. *)
Definition stored (h : gmap loc (list T)) (a : loc) : Prop :=
  exists b, h !! a = Some b /\ Z.of_nat (length b) = size_u.

(** The loop of [copy], [k] iterations from index [i], with the body
    [m_values[i] = values[i]]. *)
Fixpoint copy_loop (a : loc) (values : ptr) (i : Z) (k : nat)
  (h : gmap loc (list T)) : option (gmap loc (list T)) :=
  match k with
  | O => Some h
  | S k' =>
      match read h values i with
      | Some v =>
          match write h (m_values a) i v with
          | Some h' => copy_loop a values (i + 1) k' h'
          | None => None
          end
      | None => None
      end
  end.

(** [void copy(const type2_t *values)], for [type2_t] the element type. *)
Definition copy (a : loc) (values : ptr) (h : gmap loc (list T))
  : option (gmap loc (list T)) :=
  copy_loop a values 0 (Z.to_nat size_u) h.

(** [array(const type2_t (&values)[size_u])] and
    [operator=(const type2_t (&values)[size_u])]: [copy(values)]. *)
Definition assign (a : loc) (values : ptr) (h : gmap loc (list T))
  : option (gmap loc (list T)) :=
  copy a values h.

(** [uint64_t size( void ) const] *)
Definition size (a : loc) : Z := size_u.

(** [a[i]]: the array decays to its element pointer. *)
Definition elem (h : gmap loc (list T)) (a : loc) (i : Z) : option T :=
  read h (m_values a) i.

(** [operator slice<type_t>( void )]: [slice<type_t>(m_values)], through
    [slice(type2_t (&values)[size_u])]. *)
Definition to_slice (a : loc) : Slice.slice :=
  Slice.mk (m_values a) size_u.

(** [slice<type_t> operator()(uint64_t start, uint64_t end)] *)
Definition narrow (a : loc) (start end_ : Z) : Slice.slice :=
  Slice.of_ptr (ptr_add (m_values a) start) (wrap64 (end_ - start)).

End FixedArray.
End FixedArray.

(** ** The variable-size array *)

Module DynArray.
Section DynArray.
Context {T : Type}.

(** Contents of a block as [new type_t[n]] leaves it: the elements are
    default-initialised, which the model leaves open as a function of the
    block and the index. *)
Variable uninit : loc -> nat -> T.

(** [class array<type_t,0>]: the three private fields. *)
Record array : Type := mk { m_values : ptr; m_size : Z; m_capacity : Z }.

(** [array( void )] *)
Definition default : array := mk nullptr 0 0.

Global Instance array_inhabited : Inhabited array := populate default.

(** Array objects live in a store indexed by object identity, so that an
    operation handed the same object twice sees one set of fields; an
    object that was never written is default-constructed.  The heap holds
    the element blocks.  [allocs] and [frees] count the calls of [new[]]
    and of [delete[]] on a non-null pointer, as an instrumenting allocator
    would. *)
Definition obj := nat.

Record state : Type := mkState {
  objs : gmap obj array;
  heap : gmap loc (list T);
  allocs : nat;
  frees : nat
}.

(** *** A state and error monad

    [None] stands for undefined behaviour: an access outside every live
    block, or [delete[]] of a pointer that [new[]] did not return. *)
Definition M (A : Type) : Type := state -> option (A * state).

Definition ret {A} (a : A) : M A := fun st => Some (a, st).

Definition bind {A B} (m : M A) (k : A -> M B) : M B :=
  fun st => match m st with
            | Some (a, st') => k a st'
            | None => None
            end.

Notation "x <- m ;; k" := (bind m (fun x => k))
  (at level 90, m at level 80, right associativity).
Notation "m ;;; k" := (bind m (fun _ => k))
  (at level 90, right associativity).

(** Field reads and writes on the object [o]. *)
Definition rd_values (o : obj) : M ptr :=
  fun st => Some (m_values (objs st !!! o), st).
Definition rd_size (o : obj) : M Z :=
  fun st => Some (m_size (objs st !!! o), st).
Definition rd_capacity (o : obj) : M Z :=
  fun st => Some (m_capacity (objs st !!! o), st).

Definition set_obj (o : obj) (a : array) (st : state) : state :=
  mkState (<[o := a]> (objs st)) (heap st) (allocs st) (frees st).

Definition wr_values (o : obj) (p : ptr) : M unit := fun st =>
  let a := objs st !!! o in
  Some (tt, set_obj o (mk p (m_size a) (m_capacity a)) st).
Definition wr_size (o : obj) (n : Z) : M unit := fun st =>
  let a := objs st !!! o in
  Some (tt, set_obj o (mk (m_values a) n (m_capacity a)) st).
Definition wr_capacity (o : obj) (n : Z) : M unit := fun st =>
  let a := objs st !!! o in
  Some (tt, set_obj o (mk (m_values a) (m_size a) n) st).

(** The block [new type_t[n]] returns at location [l]. *)
Definition fresh_block (l : loc) (n : Z) : list T :=
  map (uninit l) (seq 0 (Z.to_nat n)).

(** [new type_t[n]]: a block that is not live, of exactly [n] elements.
    Allocation failure is not modelled. *)
Definition new_array (n : Z) : M ptr := fun st =>
  let l := fresh (dom (heap st)) in
  Some (addr l 0,
        mkState (objs st) (<[l := fresh_block l n]> (heap st))
                (S (allocs st)) (frees st)).

(** [delete [] p]: nothing on the null pointer, otherwise [p] must be the
    start of a live block, which is released. *)
Definition delete_array (p : ptr) : M unit := fun st =>
  match p with
  | nullptr => Some (tt, st)
  | addr l off =>
      match heap st !! l with
      | Some _ =>
          if off =? 0
          then Some (tt, mkState (objs st) (delete l (heap st))
                                 (allocs st) (S (frees st)))
          else None
      | None => None
      end
  end.

(** [p[i]] and [p[i] = v] on the heap of the state. *)
Definition load (p : ptr) (i : Z) : M T := fun st =>
  match read (heap st) p i with
  | Some v => Some (v, st)
  | None => None
  end.

Definition store (p : ptr) (i : Z) (v : T) : M unit := fun st =>
  match write (heap st) p i v with
  | Some h => Some (tt, mkState (objs st) h (allocs st) (frees st))
  | None => None
  end.

(** *** The member functions *)

(** [void destroy(bool use_pool)] *)
Definition destroy (this : obj) (use_pool : bool) : M unit :=
  (if negb use_pool then
     p <- rd_values this ;;
     delete_array p ;;;
     wr_values this nullptr ;;;
     wr_capacity this 0
   else ret tt) ;;;
  wr_size this 0.

(** The guard of the body of [create]:
    [(size < m_capacity && !use_pool) || size > m_capacity]. *)
Definition must_reallocate (size cap : Z) (use_pool : bool) : bool :=
  ((size <? cap) && negb use_pool) || (size >? cap).

(** [void create(uint64_t size, bool use_pool)]; the chained assignment
    [m_size = m_capacity = size] stores the capacity first. *)
Definition create (this : obj) (size : Z) (use_pool : bool) : M unit :=
  cap <- rd_capacity this ;;
  if must_reallocate size cap use_pool then
    destroy this false ;;;
    if size >? 0 then
      p <- new_array size ;;
      wr_values this p ;;;
      wr_capacity this size ;;;
      c <- rd_capacity this ;;
      wr_size this c
    else ret tt
  else ret tt.

(** The loop of [copy], [k] iterations from index [i], with the body
    [m_values[i] = values[i]].  The body does not write the loop bound
    [m_size], so the loop started at 0 runs [m_size] times. *)
Fixpoint copy_loop (this : obj) (values : ptr) (i : Z) (k : nat) : M unit :=
  match k with
  | O => ret tt
  | S k' =>
      p <- rd_values this ;;
      v <- load values i ;;
      store p i v ;;;
      copy_loop this values (i + 1) k'
  end.

(** [void copy(const type2_t *values, uint64_t size, bool use_pool)] *)
Definition copy (this : obj) (values : ptr) (size : Z) (use_pool : bool)
  : M unit :=
  create this size use_pool ;;;
  n <- rd_size this ;;
  copy_loop this values 0 (Z.to_nat n).

(** [array(array<type_t> &&arr)]: the three fields of the new object
    [this] are initialised from [arr], then [arr] is reset. *)
Definition move_construct (this arr : obj) : M unit :=
  p <- rd_values arr ;;
  n <- rd_size arr ;;
  c <- rd_capacity arr ;;
  (fun st => Some (tt, set_obj this (mk p n c) st)) ;;;
  wr_values arr nullptr ;;;
  wr_size arr 0 ;;;
  wr_capacity arr 0.

(** [array &operator=(const array<type_t> &arr)]: [arr] decays to its
    element pointer and [arr.size()] is read before [copy] runs. *)
Definition copy_assign (this arr : obj) : M unit :=
  p <- rd_values arr ;;
  n <- rd_size arr ;;
  copy this p n true.

(** [array &operator=(array<type_t> &&arr)] *)
Definition move_assign (this arr : obj) : M unit :=
  p1 <- rd_values this ;;
  p2 <- rd_values arr ;;
  (if decide (p1 <> p2) then destroy this false else ret tt) ;;;
  p <- rd_values arr ;;
  wr_values this p ;;;
  n <- rd_size arr ;;
  wr_size this n ;;;
  c <- rd_capacity arr ;;
  wr_capacity this c ;;;
  wr_values arr nullptr ;;;
  wr_size arr 0 ;;;
  wr_capacity arr 0.

(** [c[i] = v]: the array decays to its element pointer. *)
Definition set_elem (this : obj) (i : Z) (v : T) : M unit :=
  p <- rd_values this ;;
  store p i v.

(** Observers: [size()], the private capacity and pointer, and [c[i]]. *)
Definition size (st : state) (o : obj) : Z := m_size (objs st !!! o).
Definition capacity (st : state) (o : obj) : Z := m_capacity (objs st !!! o).
Definition values (st : state) (o : obj) : ptr := m_values (objs st !!! o).
Definition elem (st : state) (o : obj) (i : Z) : option T :=
  read (heap st) (values st o) i.

(** [operator slice<type_t>( void )] *)
Definition to_slice (st : state) (o : obj) : Slice.slice :=
  Slice.of_ptr (values st o) (size st o).

(** [slice<type_t> operator()(uint64_t start, uint64_t end)] *)
Definition narrow (st : state) (o : obj) (start end_ : Z) : Slice.slice :=
  Slice.of_ptr (ptr_add (values st o) start) (wrap64 (end_ - start)).

(** Every object default-constructed, nothing allocated. *)
Definition init : state := mkState ∅ ∅ 0 0.

(** The heap once [delete [] p] has run. *)
Definition released (p : ptr) (h : gmap loc (list T)) : gmap loc (list T) :=
  match p with
  | nullptr => h
  | addr l _ => delete l h
  end.

(** What [delete [] p] adds to the count of releases. *)
Definition freed (p : ptr) : nat :=
  match p with
  | nullptr => 0
  | addr _ _ => 1
  end.

(** [delete [] p] is defined: [p] is null or starts a live block. *)
Definition deletable (p : ptr) (h : gmap loc (list T)) : Prop :=
  match p with
  | nullptr => True
  | addr l off => off = 0 /\ is_Some (h !! l)
  end.

(** The heap and the release count after the guarded [destroy(false)] of
    move-assignment from [c] into [d]. *)
Definition heap_after_move (st : state) (d c : obj) : gmap loc (list T) :=
  if decide (values st d <> values st c)
  then released (values st d) (heap st) else heap st.
Definition frees_after_move (st : state) (d c : obj) : nat :=
  if decide (values st d <> values st c)
  then freed (values st d) + frees st else frees st.


(** *** The state invariant of one array object

    [size <= capacity]; a positive capacity comes with a live block of
    exactly that many elements, which [m_values] starts; a zero capacity
    comes with the null pointer and size zero.  The sizes are unsigned. *)
Definition inv (st : state) (o : obj) : Prop :=
  let a := objs st !!! o in
  0 <= m_size a /\ m_size a <= m_capacity a /\
  (0 < m_capacity a ->
     exists l b, m_values a = addr l 0 /\ heap st !! l = Some b
                 /\ Z.of_nat (length b) = m_capacity a) /\
  (m_capacity a = 0 -> m_values a = nullptr /\ m_size a = 0).


(** *** Constructors and the destructor *)

(** [array( void )], run on the storage of the object [this]. *)
Definition construct (this : obj) : M unit :=
  fun st => Some (tt, set_obj this default st).

(** [explicit array(uint64_t size) : array()] *)
Definition construct_sized (this : obj) (size : Z) : M unit :=
  construct this ;;;
  create this size false.




(** [~array( void )] *)
Definition destructor (this : obj) : M unit :=
  p <- rd_values this ;;
  delete_array p.

(** The state with another heap: what a write through a slice leaves. *)
Definition with_heap (st : state) (h : gmap loc (list T)) : state :=
  mkState (objs st) h (allocs st) (frees st).

(** *** Allocation failure

    [new type_t[n]] throws ([std::bad_alloc], [std::bad_array_new_length])
    when the allocator does not grant the request.  A run then ends in one
    of three ways: it returns, an exception leaves the function in the
    state reached at the throw, or its behaviour is undefined. *)
Inductive outcome : Type :=
| Returns (st : state)
| Throws (st : state)
| Undefined.

Definition returned (r : option (unit * state)) : outcome :=
  match r with
  | Some (_, st) => Returns st
  | None => Undefined
  end.

(** The allocator: whether it grants [n] elements in a given state. *)
Variable grants : state -> Z -> bool.

(** The statements of [create] from the point where [new type_t[size]]
    has returned: [m_values = new type_t[size]; m_size = m_capacity =
    size;]. *)
Definition allocate (this : obj) (size : Z) : M unit :=
  p <- new_array size ;;
  wr_values this p ;;;
  wr_capacity this size ;;;
  c <- rd_capacity this ;;
  wr_size this c.

(** [void create(uint64_t size, bool use_pool)] with an allocator that
    can refuse: the exception of [new] leaves [create] after
    [destroy(false)] has run and before any field is assigned. *)
Definition create_may_throw (this : obj) (size : Z) (use_pool : bool)
  : state -> outcome :=
  fun st =>
    if must_reallocate size (m_capacity (objs st !!! this)) use_pool then
      match destroy this false st with
      | Some (_, st1) =>
          if size >? 0 then
            if grants st1 size then returned (allocate this size st1)
            else Throws st1
          else Returns st1
      | None => Undefined
      end
    else Returns st.

(** [explicit array(uint64_t size) : array()] with such an allocator. *)
Definition construct_sized_may_throw (this : obj) (size : Z)
  : state -> outcome :=
  fun st =>
    match construct this st with
    | Some (_, st0) => create_may_throw this size false st0
    | None => Undefined
    end.

End DynArray.

Arguments array : clear implicits.
Arguments state : clear implicits.
Arguments M : clear implicits.

Module Notations.
Notation "x <- m ;; k" := (bind m (fun x => k))
  (at level 90, m at level 80, right associativity).
Notation "m ;;; k" := (bind m (fun _ => k))
  (at level 90, right associativity).
End Notations.
End DynArray.

(** ** Concrete runs, on [int] elements with zeroed fresh blocks *)

Module Scenario.
Import DynArray DynArray.Notations.

Definition zeroed : loc -> nat -> Z := fun _ _ => 0.

(** The state a run ends in, if it is defined. *)
Definition final (m : M Z unit) (st : state Z) : option (state Z) :=
  match m st with
  | Some (_, st') => Some st'
  | None => None
  end.

(** A raw buffer [{10, 20, 30}] and the slice over all of it. *)
Definition raw3 : gmap loc (list Z) := {[ 1%positive := [10; 20; 30] ]}.
Definition view3 : Slice.slice := Slice.of_ptr (addr 1%positive 0) 3.

(** [array<int> a; a.create(100, true); a.create(50, true);
    a.create(75, true);] *)
Definition pool_retention : M Z unit :=
  create zeroed 0%nat 100 true ;;;
  create zeroed 0%nat 50 true ;;;
  create zeroed 0%nat 75 true.

(** [array<int> a; a.create(5, true); a.create(0, true);] *)
Definition pool_to_zero : M Z unit :=
  create zeroed 0%nat 5 true ;;;
  create zeroed 0%nat 0 true.

(** [array<int> c; c.create(3); c[0] = 10; c[1] = 20; c[2] = 30;] *)
Definition three (c : obj) : M Z unit :=
  create zeroed c 3 true ;;;
  set_elem c 0 10 ;;;
  set_elem c 1 20 ;;;
  set_elem c 2 30.

(** [array<int> d(4); d.destroy(); d = c;] for [c] the array
    [{10, 20, 30}], with [d] the object 0 and [c] the object 1. *)
Definition assign_into_pooled : M Z unit :=
  create zeroed 0%nat 4 false ;;;
  destroy 0%nat true ;;;
  three 1%nat ;;;
  copy_assign zeroed 0%nat 1%nat.

(** [c = std::move(c);] on the array [{10, 20, 30}]. *)
Definition self_move : M Z unit :=
  three 0%nat ;;;
  move_assign 0%nat 0%nat.

(** [array<int> a; a.create(100, true); a.create(50, true);
    a.destroy(true);] *)
Definition shrink_then_destroy : M Z unit :=
  create zeroed 0%nat 100 true ;;;
  create zeroed 0%nat 50 true ;;;
  destroy 0%nat true.

(** The array [{10, 20, 30}] as the object 0, and the state with a
    second array [{1, 2}] as the object 1. *)
Definition st3 : state Z :=
  mkState {[ 0%nat := mk (addr 1%positive 0) 3 3 ]}
          {[ 1%positive := [10; 20; 30] ]} 1 0.

Definition st32 : state Z :=
  mkState (<[ 1%nat := mk (addr 2%positive 0) 2 2 ]>
             {[ 0%nat := mk (addr 1%positive 0) 3 3 ]})
          (<[ 2%positive := [1; 2] ]> {[ 1%positive := [10; 20; 30] ]}) 2 0.

(** An allocator that grants up to 1000 elements at a time. *)
Definition grants1000 : state Z -> Z -> bool := fun _ n => n <=? 1000.

(** Two raw buffers, [{10, 20, 30}] and [{0, 0, 0}]; the second one
    stores a fixed-size [array<int,3>]. *)
Definition raw33 : gmap loc (list Z) :=
  <[ 2%positive := [0; 0; 0] ]> {[ 1%positive := [10; 20; 30] ]}.

End Scenario.

(** * Properties *)

(** ** Slices *)

Section SliceFacts.
Context {T : Type}.
Implicit Types (h : gmap loc (list T)) (s : Slice.slice) (p : ptr).

Lemma read_ptr_add h p a i : read h (ptr_add p a) i = read h p (a + i).
Proof.
  destruct p as [|l off]; simpl; [done|].
  by replace (off + a + i) with (off + (a + i)) by lia.
Qed.

Lemma wrap64_small n : is_uint64 n -> wrap64 n = n.
Proof. intros Hn. unfold wrap64. apply Z.mod_small. exact Hn. Qed.

Lemma valid_at_defined h s i :
  Slice.valid h s -> 0 <= i < Slice.size s -> is_Some (Slice.at_ h s i).
Proof.
  unfold Slice.valid, Slice.at_, Slice.to_ptr, Slice.size, read.
  destruct (Slice.m_values s) as [|l off]; [lia|].
  intros (b & -> & Hoff & _ & Hlen) Hi.
  rewrite (proj2 (Z.leb_le 0 (off + i))) by lia.
  apply lookup_lt_is_Some. lia.
Qed.

(** C8. For a slice [s] and [0 <= a <= b <= s.size()], the narrowed slice
    [s(a, b)] has size [b - a], and its element [i] is the element
    [a + i] of [s] for every [0 <= i < b - a]; both are readable when [s]
    satisfies the slice's validity contract. *)
Theorem narrow_spec h s a b :
  is_uint64 (Slice.size s) ->
  0 <= a -> a <= b -> b <= Slice.size s ->
  Slice.size (Slice.narrow s a b) = b - a /\
  (forall i, 0 <= i < b - a ->
     Slice.at_ h (Slice.narrow s a b) i = Slice.at_ h s (a + i)) /\
  (Slice.valid h s ->
     forall i, 0 <= i < b - a -> is_Some (Slice.at_ h (Slice.narrow s a b) i)).
Proof.
  intros Hs Ha Hab Hb.
  assert (Hsz : Slice.size (Slice.narrow s a b) = b - a).
  { unfold Slice.narrow, Slice.of_ptr, Slice.size; simpl.
    apply wrap64_small. unfold is_uint64 in *. unfold Slice.size in *. lia. }
  assert (Hat : forall i, Slice.at_ h (Slice.narrow s a b) i
                          = Slice.at_ h s (a + i)).
  { intros i. unfold Slice.at_, Slice.narrow, Slice.to_ptr, Slice.of_ptr; simpl.
    apply read_ptr_add. }
  split; [exact Hsz|]. split; [intros i _; apply Hat|].
  intros Hv i Hi. rewrite Hat. apply valid_at_defined; [exact Hv|lia].
Qed.

End SliceFacts.

(** The narrowing [s(1, 3)] of a slice over the block [10; 20; 30]. *)
Lemma narrow_spec_witness :
  Slice.size (Slice.narrow Scenario.view3 1 3) = 3 - 1 /\
  (forall i, 0 <= i < 3 - 1 ->
     Slice.at_ Scenario.raw3 (Slice.narrow Scenario.view3 1 3) i
     = Slice.at_ Scenario.raw3 Scenario.view3 (1 + i)) /\
  (Slice.valid Scenario.raw3 Scenario.view3 ->
     forall i, 0 <= i < 3 - 1 ->
       is_Some (Slice.at_ Scenario.raw3 (Slice.narrow Scenario.view3 1 3) i)).
Proof.
  apply (narrow_spec Scenario.raw3 Scenario.view3 1 3).
  - unfold is_uint64, uint64_max; simpl; lia.
  - lia.
  - lia.
  - simpl; lia.
Defined.

(** ** The variable-size array: equations of the member functions *)

Section DynArrayFacts.
Import DynArray DynArray.Notations.
Context {T : Type} (uninit : loc -> nat -> T).
Implicit Types (st : state T) (o d c : obj) (p : ptr) (n m : Z) (a : array).

Lemma state_eta st : mkState (objs st) (heap st) (allocs st) (frees st) = st.
Proof. by destruct st. Qed.

Lemma array_eta a : mk (m_values a) (m_size a) (m_capacity a) = a.
Proof. by destruct a. Qed.

(** [destroy(true)] only clears the size. *)
Lemma destroy_pool_eq st o :
  destroy o true st
  = Some (tt, set_obj o (mk (values st o) 0 (capacity st o)) st).
Proof. reflexivity. Qed.

(** [destroy(false)] releases the buffer and resets the object. *)
Lemma destroy_release_eq st o :
  deletable (values st o) (heap st) ->
  destroy o false st
  = Some (tt, mkState (<[o := default]> (objs st))
                      (released (values st o) (heap st))
                      (allocs st) (freed (values st o) + frees st)).
Proof.
  unfold deletable, values, destroy, bind, rd_values, delete_array,
    wr_values, wr_capacity, wr_size, set_obj, default; simpl.
  destruct (m_values (objs st !!! o)) as [|l off] eqn:Hp; simpl.
  - intros _. rewrite !lookup_total_insert_eq; simpl.
    by rewrite !insert_insert_eq.
  - intros [-> [b Hb]]. rewrite Hb; simpl.
    rewrite !lookup_total_insert_eq; simpl.
    by rewrite !insert_insert_eq.
Qed.

Lemma create_keep_eq st o n use_pool :
  must_reallocate n (capacity st o) use_pool = false ->
  create uninit o n use_pool st = Some (tt, st).
Proof.
  unfold capacity, create, bind, rd_capacity.
  by intros ->.
Qed.

Lemma create_release_eq st o n use_pool :
  must_reallocate n (capacity st o) use_pool = true ->
  deletable (values st o) (heap st) ->
  n <= 0 ->
  create uninit o n use_pool st = destroy o false st.
Proof.
  intros Hc Hd Hn. unfold create, bind at 1, rd_capacity.
  unfold capacity in Hc. rewrite Hc.
  unfold bind at 1. rewrite destroy_release_eq by done.
  replace (n >? 0) with false; [done|].
  symmetry. rewrite Z.gtb_ltb. apply Z.ltb_ge. lia.
Qed.

Lemma create_allocate_eq st o n use_pool :
  must_reallocate n (capacity st o) use_pool = true ->
  deletable (values st o) (heap st) ->
  0 < n ->
  create uninit o n use_pool st
  = let h := released (values st o) (heap st) in
    let l := fresh (dom h) in
    Some (tt, mkState (<[o := mk (addr l 0) n n]> (objs st))
                      (<[l := fresh_block uninit l n]> h)
                      (S (allocs st)) (freed (values st o) + frees st)).
Proof.
  intros Hc Hd Hn. unfold create, bind at 1, rd_capacity.
  unfold capacity in Hc. rewrite Hc.
  unfold bind at 1. rewrite destroy_release_eq by done.
  replace (n >? 0) with true
    by (symmetry; rewrite Z.gtb_ltb; apply Z.ltb_lt; lia).
  unfold bind, new_array, wr_values, wr_capacity, rd_capacity, wr_size,
    set_obj; simpl.
  rewrite !lookup_total_insert_eq; simpl.
  by rewrite !insert_insert_eq.
Qed.

(** *** The invariant *)

Lemma inv_default_obj st o : objs st !!! o = default -> inv st o.
Proof.
  intros H. unfold inv. rewrite H; simpl.
  repeat split; try lia.
Qed.

Lemma inv_init o : inv (init (T:=T)) o.
Proof. apply inv_default_obj. unfold init; simpl. by rewrite lookup_total_empty. Qed.

(** An object that satisfies the invariant is default-constructed in all
    but its identity, or owns a live block of [capacity] elements. *)
Lemma inv_cases st o :
  inv st o ->
  objs st !!! o = default \/
  exists l b, values st o = addr l 0 /\ heap st !! l = Some b
              /\ Z.of_nat (length b) = capacity st o
              /\ 0 < capacity st o /\ 0 <= size st o <= capacity st o.
Proof.
  unfold inv, values, capacity, size.
  destruct (objs st !!! o) as [p n c]; simpl.
  intros (H0 & Hle & Hpos & Hzero).
  destruct (decide (c = 0)) as [->|Hc].
  - left. destruct (Hzero eq_refl) as [-> ->]. done.
  - right. destruct Hpos as (l & b & -> & Hb & Hlen); [lia|].
    exists l, b. repeat split; try done; lia.
Qed.

Lemma inv_deletable st o : inv st o -> deletable (values st o) (heap st).
Proof.
  intros [Hd|(l & b & Hp & Hb & _)]%inv_cases.
  - unfold values. rewrite Hd. exact I.
  - rewrite Hp. split; [done|]. by exists b.
Qed.

(** The invariant only looks at the fields of the object and at the
    length of its block. *)
Lemma inv_frame st st' o o' :
  objs st' !!! o' = objs st !!! o ->
  (forall l b, values st o = addr l 0 -> heap st !! l = Some b ->
     exists b', heap st' !! l = Some b' /\ length b' = length b) ->
  inv st o -> inv st' o'.
Proof.
  intros Ho Hh. unfold inv, values in *. rewrite Ho.
  intros (H0 & Hle & Hpos & Hzero). repeat split; try done.
  - intros Hc. destruct (Hpos Hc) as (l & b & Hp & Hb & Hlen).
    destruct (Hh l b Hp Hb) as (b' & Hb' & Hlen').
    exists l, b'. repeat split; try done. by rewrite Hlen'.
  - by apply Hzero.
  - by apply Hzero.
Qed.

Lemma fresh_block_length l n : 0 <= n ->
  Z.of_nat (length (fresh_block uninit l n)) = n.
Proof.
  intros Hn. unfold fresh_block. rewrite length_map, length_seq. lia.
Qed.

Lemma destroy_inv st o use_pool :
  inv st o ->
  exists st', destroy o use_pool st = Some (tt, st') /\ inv st' o.
Proof.
  intros Hi. destruct use_pool.
  - eexists. split; [apply destroy_pool_eq|].
    unfold inv, set_obj; simpl. rewrite lookup_total_insert_eq; simpl.
    destruct (inv_cases _ _ Hi) as [Hd|(l & b & Hp & Hb & Hlen & Hc & Hs)].
    + unfold values, capacity. rewrite Hd; simpl. repeat split; try lia; done.
    + rewrite Hp. repeat split; try lia.
      intros _. by exists l, b.
  - eexists. split; [apply destroy_release_eq, inv_deletable, Hi|].
    apply inv_default_obj; simpl. apply lookup_total_insert_eq.
Qed.

Lemma create_inv st o n use_pool :
  0 <= n -> inv st o ->
  exists st', create uninit o n use_pool st = Some (tt, st') /\ inv st' o.
Proof.
  intros Hn Hi.
  destruct (must_reallocate n (capacity st o) use_pool) eqn:Hc.
  - destruct (decide (n = 0)) as [->|Hn0].
    + rewrite create_release_eq by (try apply inv_deletable; done).
      by apply destroy_inv.
    + eexists. split.
      { apply create_allocate_eq; [done|by apply inv_deletable|lia]. }
      unfold inv; simpl. rewrite lookup_total_insert_eq; simpl.
      repeat split; try lia.
      intros _. eexists _, _. split; [done|].
      split; [apply lookup_insert_eq|]. by apply fresh_block_length.
  - exists st. split; [by apply create_keep_eq|done].
Qed.

(** *** Moves *)


Ltac store_simpl :=
  repeat first
    [ rewrite lookup_total_insert_eq
    | rewrite insert_insert_eq
    | rewrite lookup_total_insert_ne by done
    | progress simpl ].

Lemma move_construct_eq st d c :
  move_construct d c st
  = Some (tt, set_obj c default (set_obj d (objs st !!! c) st)).
Proof.
  unfold move_construct, bind, rd_values, rd_size, rd_capacity, wr_values,
    wr_size, wr_capacity, set_obj, default; simpl.
  rewrite array_eta. store_simpl. done.
Qed.

(** Self-move-assignment: the guard skips [destroy], the fields are
    assigned to themselves, and the reset of [arr] then clears the object
    itself; the heap is not touched. *)
Lemma move_assign_self_eq st c :
  move_assign c c st = Some (tt, set_obj c default st).
Proof.
  unfold move_assign, bind, rd_values, rd_size, rd_capacity; simpl.
  destruct (decide (m_values (objs st !!! c) <> m_values (objs st !!! c)))
    as [Hne|_]; [done|].
  unfold ret, wr_values, wr_size, wr_capacity, set_obj, default; simpl.
  store_simpl. done.
Qed.

Lemma move_assign_eq st d c :
  d <> c ->
  deletable (values st d) (heap st) ->
  move_assign d c st
  = Some (tt, mkState (<[c := default]> (<[d := objs st !!! c]> (objs st)))
                      (heap_after_move st d c) (allocs st)
                      (frees_after_move st d c)).
Proof.
  intros Hdc Hdel.
  unfold move_assign, heap_after_move, frees_after_move.
  unfold bind at 1, rd_values at 1. unfold bind at 1, rd_values at 1.
  unfold values. unfold bind at 1.
  destruct (decide (m_values (objs st !!! d) <> m_values (objs st !!! c)))
    as [Hne|He].
  - rewrite destroy_release_eq by done.
    unfold bind, rd_values, rd_size, rd_capacity, wr_values, wr_size,
      wr_capacity, set_obj, default; simpl.
    store_simpl. rewrite array_eta. done.
  - unfold ret, bind, rd_values, rd_size, rd_capacity, wr_values, wr_size,
      wr_capacity, set_obj, default; simpl.
    store_simpl. rewrite array_eta. by destruct st.
Qed.

(** *** The copy loop *)

Lemma read_frame (h h' : gmap loc (list T)) p i :
  (forall l off, p = addr l off -> h' !! l = h !! l) ->
  read h' p i = read h p i.
Proof.
  destruct p as [|l off]; [done|]. intros H. simpl. by rewrite (H l off).
Qed.

Lemma write_shape (h h' : gmap loc (list T)) p i v l :
  write h p i v = Some h' -> length <$> h' !! l = length <$> h !! l.
Proof.
  unfold write. destruct p as [|l0 off]; [done|].
  destruct (h !! l0) as [b|] eqn:Hb; [|done].
  destruct ((0 <=? off + i) && (off + i <? Z.of_nat (length b))); [|done].
  intros [= <-]. destruct (decide (l = l0)) as [->|Hne].
  - rewrite lookup_insert_eq, Hb; simpl. by rewrite length_insert.
  - by rewrite lookup_insert_ne.
Qed.

(** The loop writes no field and keeps the length of every block. *)
Lemma copy_loop_shape d p k : forall i st st',
  copy_loop d p i k st = Some (tt, st') ->
  objs st' = objs st /\ allocs st' = allocs st /\ frees st' = frees st /\
  forall l, length <$> heap st' !! l = length <$> heap st !! l.
Proof.
  induction k as [|k IH]; intros i st st'; simpl.
  - by intros [= <-].
  - unfold bind at 1, rd_values at 1. unfold bind at 1, load.
    destruct (read (heap st) p i) as [v|]; [|done].
    unfold bind at 1, store.
    destruct (write (heap st) (m_values (objs st !!! d)) i v) as [h'|] eqn:Hw;
      [|done].
    intros (Ho & Ha & Hf & Hl)%IH; simpl in *.
    repeat split; try done.
    intros l. rewrite Hl. by eapply write_shape.
Qed.

Lemma read_in_block (h : gmap loc (list T)) l b i :
  h !! l = Some b -> 0 <= i < Z.of_nat (length b) ->
  exists v, b !! Z.to_nat i = Some v /\ read h (addr l 0) i = Some v.
Proof.
  intros Hb Hi. destruct (lookup_lt_is_Some_2 b (Z.to_nat i)) as [v Hv]; [lia|].
  exists v. split; [done|]. unfold read. rewrite Hb.
  rewrite Z.add_0_l. by rewrite (proj2 (Z.leb_le 0 i)) by lia.
Qed.

Lemma write_in_block (h : gmap loc (list T)) l b i v :
  h !! l = Some b -> 0 <= i < Z.of_nat (length b) ->
  write h (addr l 0) i v = Some (<[l := <[Z.to_nat i := v]> b]> h).
Proof.
  intros Hb Hi. unfold write. rewrite Hb.
  rewrite Z.add_0_l. rewrite (proj2 (Z.leb_le 0 i)) by lia.
  by rewrite (proj2 (Z.ltb_lt i _)) by lia.
Qed.

(** Copying a block onto itself changes nothing. *)
Lemma copy_loop_self c l b k : forall i st,
  values st c = addr l 0 -> heap st !! l = Some b ->
  0 <= i -> i + Z.of_nat k <= Z.of_nat (length b) ->
  copy_loop c (addr l 0) i k st = Some (tt, st).
Proof.
  induction k as [|k IH]; intros i st Hp Hb Hi Hk; simpl; [done|].
  unfold bind at 1, rd_values at 1. unfold values in Hp. rewrite Hp.
  destruct (read_in_block (heap st) l b i Hb) as (v & Hv & Hr); [lia|].
  unfold bind at 1, load. rewrite Hr.
  unfold bind at 1, store. rewrite (write_in_block _ _ b) by (done || lia).
  rewrite list_insert_id by done. rewrite insert_id by done.
  rewrite state_eta. apply IH; try done; lia.
Qed.

(** The loop is defined when both blocks hold the copied range. *)
Lemma copy_loop_defined d ld lc k : forall i st,
  values st d = addr ld 0 ->
  (exists bd, heap st !! ld = Some bd /\ i + Z.of_nat k <= Z.of_nat (length bd)) ->
  (exists bc, heap st !! lc = Some bc /\ i + Z.of_nat k <= Z.of_nat (length bc)) ->
  0 <= i ->
  exists st', copy_loop d (addr lc 0) i k st = Some (tt, st').
Proof.
  induction k as [|k IH]; intros i st Hp (bd & Hbd & Hkd) (bc & Hbc & Hkc) Hi;
    simpl; [by eexists|].
  unfold bind at 1, rd_values at 1. unfold values in Hp. rewrite Hp.
  destruct (read_in_block (heap st) lc bc i Hbc) as (v & Hv & Hr); [lia|].
  unfold bind at 1, load. rewrite Hr.
  unfold bind at 1, store. rewrite (write_in_block _ _ bd) by (done || lia).
  apply IH; simpl; try done; try lia.
  - eexists. split; [apply lookup_insert_eq|]. rewrite length_insert. lia.
  - destruct (decide (lc = ld)) as [->|Hne].
    + eexists. split; [apply lookup_insert_eq|]. rewrite length_insert. lia.
    + exists bc. split; [by rewrite lookup_insert_ne|lia].
Qed.

(** *** Copy-assignment *)

Lemma inv_shape st st' o :
  objs st' = objs st ->
  (forall l, length <$> heap st' !! l = length <$> heap st !! l) ->
  inv st o -> inv st' o.
Proof.
  intros Ho Hl. apply inv_frame; [by rewrite Ho|].
  intros l b _ Hb. specialize (Hl l). rewrite Hb in Hl.
  destruct (heap st' !! l) as [b'|]; [|done].
  exists b'. split; [done|]. by injection Hl.
Qed.

Lemma must_reallocate_pool n cap :
  must_reallocate n cap true = true <-> cap < n.
Proof.
  unfold must_reallocate. rewrite andb_false_r; simpl.
  rewrite Z.gtb_ltb, Z.ltb_lt. done.
Qed.

Lemma must_reallocate_pool_fits n cap :
  n <= cap -> must_reallocate n cap true = false.
Proof.
  intros Hn. destruct (must_reallocate n cap true) eqn:E; [|done].
  apply must_reallocate_pool in E. lia.
Qed.

(** A pooled [create] for a size within the capacity runs no statement:
    in particular it stores no size. *)
Lemma create_pooled_fits_keeps st o n :
  n <= capacity st o -> create uninit o n true st = Some (tt, st).
Proof. intros Hn. by apply create_keep_eq, must_reallocate_pool_fits. Qed.

(** A pooled [create] on [d] that reallocates, for a size that another
    well-formed object [c] holds, leaves the block of [c] alone: the two
    cannot share a block, since the block of [c] would be large enough. *)
Lemma create_grow_frame st d c n :
  d <> c -> inv st d -> inv st c ->
  capacity st d < n -> n <= capacity st c ->
  let h := released (values st d) (heap st) in
  let l := fresh (dom h) in
  create uninit d n true st
  = Some (tt, mkState (<[d := mk (addr l 0) n n]> (objs st))
                      (<[l := fresh_block uninit l n]> h)
                      (S (allocs st)) (freed (values st d) + frees st)) /\
  forall lc b, values st c = addr lc 0 -> heap st !! lc = Some b ->
    lc <> l /\ h !! lc = Some b.
Proof.
  intros Hdc Hd Hc Hgrow Hfit h l.
  assert (0 <= capacity st d).
  { unfold inv, capacity in *. lia. }
  split.
  { apply create_allocate_eq; [by apply must_reallocate_pool
                              |by apply inv_deletable|lia]. }
  intros lc b Hpc Hb.
  assert (Hh : h !! lc = Some b).
  { subst h. destruct (inv_cases _ _ Hd) as [Hdef|(ld & bd & Hpd & Hbd & Hlen & _)].
    - unfold values at 1. rewrite Hdef. done.
    - rewrite Hpd; simpl. rewrite lookup_delete_ne; [done|].
      intros ->. destruct (inv_cases _ _ Hc) as [Hdef|(lc' & bc & Hpc' & Hbc & Hlenc & _)].
      + unfold values in Hpc. rewrite Hdef in Hpc. done.
      + rewrite Hpc in Hpc'. injection Hpc' as <-.
        rewrite Hb in Hbd, Hbc. injection Hbd as <-. injection Hbc as <-. lia. }
  split; [|done].
  intros ->. assert (Hin : l ∈ dom h) by (apply elem_of_dom; eauto).
  by apply is_fresh in Hin.
Qed.

Lemma copy_assign_unfold st d c :
  copy_assign uninit d c st
  = match create uninit d (size st c) true st with
    | Some (_, st1) =>
        copy_loop d (values st c) 0 (Z.to_nat (size st1 d)) st1
    | None => None
    end.
Proof.
  unfold copy_assign, copy, bind, rd_values, rd_size, size, values.
  by destruct (create uninit d (m_size (objs st !!! c)) true st) as [[[] st1]|].
Qed.

Lemma copy_assign_inv st d c st' :
  inv st d -> inv st c ->
  copy_assign uninit d c st = Some (tt, st') ->
  inv st' d /\ inv st' c.
Proof.
  intros Hd Hc. rewrite copy_assign_unfold.
  assert (Hsc : 0 <= size st c) by (unfold inv, size in *; lia).
  destruct (create_inv st d (size st c) true Hsc Hd) as (st1 & Hcr & Hd1).
  rewrite Hcr.
  assert (Hc1 : inv st1 c).
  { destruct (decide (d = c)) as [<-|Hdc]; [done|].
    destruct (must_reallocate (size st c) (capacity st d) true) eqn:Hm.
    - apply must_reallocate_pool in Hm.
      destruct (create_grow_frame st d c (size st c)) as [Heq Hfr];
        try done; [unfold inv, size, capacity in *; lia|].
      rewrite Heq in Hcr. injection Hcr as <-.
      revert Hc. apply inv_frame; simpl.
      + by rewrite lookup_total_insert_ne.
      + intros lc b Hp Hb. destruct (Hfr lc b Hp Hb) as [Hne Hh].
        exists b. by rewrite lookup_insert_ne.
    - rewrite create_keep_eq in Hcr by done. by injection Hcr as <-. }
  intros (Ho & _ & _ & Hl)%copy_loop_shape.
  split; eapply inv_shape; eauto.
Qed.

Lemma copy_assign_defined st d c :
  inv st d -> inv st c ->
  capacity st d < size st c \/ size st d <= capacity st c ->
  exists st', copy_assign uninit d c st = Some (tt, st').
Proof.
  intros Hd Hc Hok. rewrite copy_assign_unfold.
  assert (Hsc : 0 <= size st c <= capacity st c)
    by (unfold inv, size, capacity in *; lia).
  destruct (must_reallocate (size st c) (capacity st d) true) eqn:Hm.
  - apply must_reallocate_pool in Hm.
    assert (Hdc : d <> c) by (intros ->; lia).
    destruct (create_grow_frame st d c (size st c)) as [Heq Hfr];
      try done; [lia|].
    rewrite Heq. unfold size at 1; simpl. rewrite lookup_total_insert_eq; simpl.
    destruct (inv_cases _ _ Hc) as [Hdef|(lc & bc & Hpc & Hbc & Hlenc & _)].
    { unfold size, capacity in *. rewrite Hdef in *. simpl in *.
      unfold inv in Hd. lia. }
    rewrite Hpc. destruct (Hfr lc bc Hpc Hbc) as [Hne Hh].
    eapply copy_loop_defined; try done.
    + unfold values; simpl. by rewrite lookup_total_insert_eq.
    + simpl. eexists. split; [apply lookup_insert_eq|].
      rewrite fresh_block_length; lia.
    + simpl. exists bc. split; [by rewrite lookup_insert_ne|]. lia.
  - rewrite create_keep_eq by done.
    destruct Hok as [Hgrow|Hfit].
    { apply must_reallocate_pool in Hgrow. congruence. }
    destruct (decide (size st d = 0)) as [->|Hnz]; [by eexists|].
    assert (0 <= size st d <= capacity st d)
      by (unfold inv, size, capacity in *; lia).
    destruct (inv_cases _ _ Hd) as [Hdef|(ld & bd & Hpd & Hbd & Hlend & _)].
    { unfold size in *. rewrite Hdef in *. simpl in *. lia. }
    destruct (inv_cases _ _ Hc) as [Hdef|(lc & bc & Hpc & Hbc & Hlenc & _)].
    { unfold size, capacity in *. rewrite Hdef in *. simpl in *. lia. }
    rewrite Hpc. eapply copy_loop_defined; try done.
    + exists bd. split; [done|lia].
    + exists bc. split; [done|lia].
Qed.


Lemma read_block (h : gmap loc (list T)) l b i :
  h !! l = Some b -> 0 <= i -> read h (addr l 0) i = b !! Z.to_nat i.
Proof.
  intros Hb Hi. unfold read. rewrite Hb, Z.add_0_l.
  by rewrite (proj2 (Z.leb_le 0 i)) by lia.
Qed.



(** ** The variable-size array: behaviour of the member functions *)

(** C10. On an array of positive capacity [C], [create(C, false)] does
    nothing: the run ends in the state it started in, so the pointer, the
    size, the capacity, the heap and the allocator's counters are as
    before. *)
Theorem create_same_capacity_unpooled st o :
  0 < capacity st o ->
  create uninit o (capacity st o) false st = Some (tt, st).
Proof.
  intros _. apply create_keep_eq. unfold must_reallocate.
  rewrite Z.ltb_irrefl, Z.gtb_ltb, Z.ltb_irrefl. done.
Qed.

(** C9. Self-copy-assignment [c = c] of a well-formed array is defined
    and leaves its size, its capacity and every element [c[i]],
    [0 <= i < c.size()], as they were; nothing is allocated or released. *)
Theorem copy_assign_self st c :
  inv st c ->
  exists st',
    copy_assign uninit c c st = Some (tt, st') /\
    size st' c = size st c /\ capacity st' c = capacity st c /\
    (forall i, 0 <= i < size st c ->
       elem st' c i = elem st c i /\ is_Some (elem st c i)) /\
    allocs st' = allocs st /\ frees st' = frees st.
Proof.
  intros Hi. exists st.
  assert (Hs : 0 <= size st c <= capacity st c)
    by (unfold inv, size, capacity in *; lia).
  split.
  { rewrite copy_assign_unfold.
    rewrite create_keep_eq by (apply must_reallocate_pool_fits; lia).
    destruct (decide (size st c = 0)) as [->|Hnz]; [done|].
    destruct (inv_cases _ _ Hi) as [Hdef|(l & b & Hp & Hb & Hlen & _)].
    { unfold size in *. rewrite Hdef in *. simpl in *. lia. }
    rewrite Hp. eapply copy_loop_self; try done. lia. }
  repeat split; try done.
  destruct (inv_cases _ _ Hi) as [Hdef|(l & b & Hp & Hb & Hlen & _)].
  { unfold size in *. rewrite Hdef in *. simpl in *. lia. }
  unfold elem. rewrite Hp.
  destruct (read_in_block (heap st) l b i Hb) as (v & _ & ->); [lia|]. by eexists.
Qed.

(** The block of a well-formed source survives the guarded release of
    move-assignment. *)
Lemma heap_after_move_source st d c l off :
  inv st d -> inv st c -> values st c = addr l off ->
  heap_after_move st d c !! l = heap st !! l.
Proof.
  intros Hd Hc Hpc. unfold heap_after_move.
  destruct (decide (values st d <> values st c)) as [Hne|_]; [|done].
  destruct (inv_cases _ _ Hd) as [Hdef|(ld & bd & Hpd & _)].
  { unfold values at 1. by rewrite Hdef. }
  destruct (inv_cases _ _ Hc) as [Hdef|(lc & bc & Hpc' & _)].
  { unfold values in Hpc. by rewrite Hdef in Hpc. }
  rewrite Hpd; simpl. apply lookup_delete_ne. intros ->.
  rewrite Hpc in Hpc'. injection Hpc' as -> ->. congruence.
Qed.

(** C6. For two distinct arrays, move-construction of [d] from [c] and
    move-assignment [d = move(c)] into a well-formed [d] leave [c] in the
    default empty state (null pointer, size 0, capacity 0) and give [d]
    the pointer, the size and the capacity that [c] had; the elements
    then read through [d] are those that [c] had. *)
Theorem move_takes_fields st d c :
  d <> c ->
  (exists st',
     move_construct d c st = Some (tt, st') /\
     values st' c = nullptr /\ size st' c = 0 /\ capacity st' c = 0 /\
     values st' d = values st c /\ size st' d = size st c /\
     capacity st' d = capacity st c /\
     forall i, elem st' d i = elem st c i) /\
  (inv st d ->
   exists st',
     move_assign d c st = Some (tt, st') /\
     values st' c = nullptr /\ size st' c = 0 /\ capacity st' c = 0 /\
     values st' d = values st c /\ size st' d = size st c /\
     capacity st' d = capacity st c /\
     (inv st c -> forall i, elem st' d i = elem st c i)).
Proof.
  intros Hdc. split; [|intros Hd]; eexists.
  - split; [apply move_construct_eq|].
    unfold elem, values, size, capacity, set_obj; simpl.
    rewrite lookup_total_insert_eq.
    rewrite lookup_total_insert_ne, lookup_total_insert_eq by done. done.
  - split; [by apply move_assign_eq, inv_deletable|].
    unfold elem. unfold values, size, capacity; simpl.
    rewrite lookup_total_insert_eq.
    rewrite lookup_total_insert_ne, lookup_total_insert_eq by done.
    repeat split; try done.
    intros Hc i. apply read_frame. intros l off Hp.
    by eapply heap_after_move_source.
Qed.

(** C5, as the code has it. [destroy(false)] releases the buffer and
    leaves the null pointer, size 0 and capacity 0; [destroy(true)] sets
    the size to 0 and keeps the pointer, the capacity and the heap.  After
    [create(n, pool)] then [destroy(true)] on an array of capacity [C] the
    size is 0 and the capacity is [n], except that a pooled [create] with
    [n < C] keeps the capacity [C]; in both cases a following
    [create(m, true)] with [m <= n] allocates and releases nothing and
    keeps the buffer and the capacity. *)
Theorem destroy_then_pooled_create st o n m use_pool :
  inv st o -> 0 <= n -> m <= n ->
  (exists st',
     destroy o false st = Some (tt, st') /\
     values st' o = nullptr /\ size st' o = 0 /\ capacity st' o = 0 /\
     heap st' = released (values st o) (heap st) /\
     (forall l off, values st o = addr l off -> heap st' !! l = None)) /\
  (exists st',
     destroy o true st = Some (tt, st') /\
     size st' o = 0 /\ values st' o = values st o /\
     capacity st' o = capacity st o /\
     heap st' = heap st /\ allocs st' = allocs st /\ frees st' = frees st) /\
  (exists st1 st2 st3,
     create uninit o n use_pool st = Some (tt, st1) /\
     destroy o true st1 = Some (tt, st2) /\
     size st2 o = 0 /\
     capacity st2 o
     = (if use_pool && (n <? capacity st o) then capacity st o else n) /\
     create uninit o m true st2 = Some (tt, st3) /\
     allocs st3 = allocs st2 /\ frees st3 = frees st2 /\
     heap st3 = heap st2 /\ values st3 o = values st2 o /\
     capacity st3 o = capacity st2 o).
Proof.
  intros Hi Hn Hm. split; [|split].
  - eexists. split; [by apply destroy_release_eq, inv_deletable|].
    unfold values, size, capacity; simpl.
    rewrite lookup_total_insert_eq. repeat split; try done.
    intros l off ->. simpl. apply lookup_delete_eq.
  - eexists. split; [apply destroy_pool_eq|].
    unfold values, size, capacity, set_obj; simpl.
    rewrite lookup_total_insert_eq. done.
  - assert (Hcap : exists st1,
        create uninit o n use_pool st = Some (tt, st1) /\
        capacity st1 o
        = (if use_pool && (n <? capacity st o) then capacity st o else n)).
    { destruct (must_reallocate n (capacity st o) use_pool) eqn:Hc.
      - assert (Hf : use_pool && (n <? capacity st o) = false).
        { unfold must_reallocate in Hc. destruct use_pool; [|done]. simpl in *.
          rewrite andb_false_r in Hc. simpl in Hc.
          rewrite Z.gtb_ltb in Hc. apply Z.ltb_lt in Hc.
          apply Z.ltb_ge. lia. }
        rewrite Hf. destruct (decide (n = 0)) as [->|Hn0].
        + rewrite create_release_eq by (try apply inv_deletable; done).
          eexists. split; [by apply destroy_release_eq, inv_deletable|].
          unfold capacity at 1; simpl. by rewrite lookup_total_insert_eq.
        + eexists. split.
          { apply create_allocate_eq; [done|by apply inv_deletable|lia]. }
          unfold capacity at 1; simpl. by rewrite lookup_total_insert_eq.
      - exists st. split; [by apply create_keep_eq|].
        unfold must_reallocate in Hc.
        apply orb_false_iff in Hc as [Hlt Hgt].
        rewrite Z.gtb_ltb in Hgt. apply Z.ltb_ge in Hgt.
        destruct use_pool; simpl in *.
        + destruct (n <? capacity st o) eqn:E; [done|].
          apply Z.ltb_ge in E. lia.
        + rewrite andb_true_r in Hlt. apply Z.ltb_ge in Hlt. lia. }
    destruct Hcap as (st1 & Hcr & Hcap).
    set (st2 := set_obj o (mk (values st1 o) 0 (capacity st1 o)) st1).
    assert (Hcap2 : capacity st2 o = capacity st1 o).
    { unfold capacity at 1, st2, set_obj; simpl.
      by rewrite lookup_total_insert_eq. }
    exists st1, st2, st2. split; [done|]. split; [apply destroy_pool_eq|].
    split; [unfold size, st2, set_obj; simpl; by rewrite lookup_total_insert_eq|].
    split; [by rewrite Hcap2|].
    split; [|done].
    apply create_pooled_fits_keeps. rewrite Hcap2, Hcap.
    destruct (use_pool && (n <? capacity st o)) eqn:E; [|lia].
    apply andb_true_iff in E as [_ E]. apply Z.ltb_lt in E. lia.
Qed.

(** The state invariant holds of every default-constructed array and is
    kept by [create] and [destroy] with either pool flag, by
    move-assignment and by move-construction, for the target and for the
    source, all of which are defined on well-formed arrays.
    Copy-assignment keeps it in every run that is defined, and is defined
    when the target grows or its old size fits the source's capacity. *)
Theorem inv_preserved :
  (forall o, inv (init (T:=T)) o) /\
  (forall st o n use_pool, 0 <= n -> inv st o ->
     exists st', create uninit o n use_pool st = Some (tt, st') /\ inv st' o) /\
  (forall st o use_pool, inv st o ->
     exists st', destroy o use_pool st = Some (tt, st') /\ inv st' o) /\
  (forall st d c st', inv st d -> inv st c ->
     copy_assign uninit d c st = Some (tt, st') -> inv st' d /\ inv st' c) /\
  (forall st d c, inv st d -> inv st c ->
     capacity st d < size st c \/ size st d <= capacity st c ->
     exists st', copy_assign uninit d c st = Some (tt, st')) /\
  (forall st d c, inv st d -> inv st c ->
     exists st', move_assign d c st = Some (tt, st')
                 /\ inv st' d /\ inv st' c) /\
  (forall st d c, inv st c ->
     exists st', move_construct d c st = Some (tt, st')
                 /\ inv st' d /\ inv st' c).
Proof.
  split; [apply inv_init|].
  split; [intros; by apply create_inv|].
  split; [intros; by apply destroy_inv|].
  split; [intros st d c st' Hd Hc; by apply copy_assign_inv|].
  split; [intros; by apply copy_assign_defined|].
  split.
  - intros st d c Hd Hc. destruct (decide (d = c)) as [->|Hdc].
    + eexists. split; [apply move_assign_self_eq|].
      split; apply inv_default_obj; simpl; apply lookup_total_insert_eq.
    + eexists. split; [by apply move_assign_eq, inv_deletable|].
      split.
      * generalize Hc. apply inv_frame; simpl.
        { by rewrite lookup_total_insert_ne, lookup_total_insert_eq. }
        intros l b Hp Hb. exists b. split; [|done].
        rewrite <- Hb. by eapply heap_after_move_source.
      * apply inv_default_obj; simpl. apply lookup_total_insert_eq.
  - intros st d c Hc. eexists. split; [apply move_construct_eq|].
    destruct (decide (d = c)) as [->|Hdc].
    + split; apply inv_default_obj; simpl; apply lookup_total_insert_eq.
    + split.
      * revert Hc. apply inv_frame; simpl.
        { by rewrite lookup_total_insert_ne, lookup_total_insert_eq. }
        intros l b _ Hb. by exists b.
      * apply inv_default_obj; simpl. apply lookup_total_insert_eq.
Qed.

End DynArrayFacts.

(** ** Concrete runs *)

Section Runs.
Import DynArray DynArray.Notations Scenario.

(** The narrowing [d(1, 3)] of the array [{10, 20, 30}] views its last
    two elements. *)
Example narrow_array_run :
  Slice.size (narrow st3 0%nat 1 3) = 2 /\
  Slice.at_ (heap st3) (narrow st3 0%nat 1 3) 0 = Some 20 /\
  Slice.at_ (heap st3) (narrow st3 0%nat 1 3) 1 = Some 30.
Proof. vm_compute. done. Qed.

(** [b = move(a)] for [a = {10, 20, 30}] and a fresh [b]. *)
Example move_into_fresh_run :
  exists st',
    final (move_assign 1%nat 0%nat) st3 = Some st' /\
    size st' 0%nat = 0 /\ size st' 1%nat = 3 /\ elem st' 1%nat 2 = Some 30.
Proof. eexists. split; [vm_compute; reflexivity|]. vm_compute. done. Qed.

Lemma st3_inv : inv st3 0%nat.
Proof.
  unfold inv. vm_compute. repeat split; try discriminate.
  intros _. exists 1%positive, [10; 20; 30]. done.
Qed.

Lemma st32_inv0 : inv st32 0%nat.
Proof.
  unfold inv. vm_compute. repeat split; try discriminate.
  intros _. exists 1%positive, [10; 20; 30]. done.
Qed.

Lemma st32_inv1 : inv st32 1%nat.
Proof.
  unfold inv. vm_compute. repeat split; try discriminate.
  intros _. exists 2%positive, [1; 2]. done.
Qed.

(** C1, at [create(100, true); create(50, true); create(75, true)] on an
    empty array: one allocation and capacity 100, but the pooled calls
    store no size, so [size()] is still 100 and not 75. *)
Theorem pool_retention_run :
  exists st',
    final pool_retention init = Some st' /\
    allocs st' = 1%nat /\ capacity st' 0%nat = 100 /\
    size st' 0%nat = 100 /\ size st' 0%nat <> 75.
Proof.
  eexists. split; [vm_compute; reflexivity|]. vm_compute.
  repeat split; discriminate.
Qed.

(** C3, at [create(5, true); create(0, true)]: the second call changes
    nothing, so the pointer and the capacity are kept, and so is the
    size 5. *)
Theorem pool_to_zero_run :
  exists st1 st',
    final (create zeroed 0%nat 5 true) init = Some st1 /\
    final pool_to_zero init = Some st' /\
    st' = st1 /\ size st' 0%nat = 5 /\ size st' 0%nat <> 0.
Proof.
  eexists. eexists. split; [vm_compute; reflexivity|].
  split; [vm_compute; reflexivity|]. vm_compute.
  repeat split; discriminate.
Qed.

(** C2, at [d = c] for [c = {10, 20, 30}] and a [d] emptied by
    [destroy(true)] with capacity 4: [create(3, true)] stores no size, the
    loop runs [d.size() = 0] times, and [d.size()] is 0 and not
    [c.size() = 3]. *)
Theorem assign_into_pooled_run :
  exists st',
    final assign_into_pooled init = Some st' /\
    size st' 1%nat = 3 /\ size st' 0%nat = 0 /\
    size st' 0%nat <> size st' 1%nat /\
    elem st' 1%nat 0 = Some 10 /\ elem st' 0%nat 0 = Some 0.
Proof.
  eexists. split; [vm_compute; reflexivity|]. vm_compute.
  repeat split; discriminate.
Qed.

(** C4, at [c = move(c)] for [c = {10, 20, 30}]: the object ends with the
    null pointer, size 0 and capacity 0, and its block is still live and
    was never released. *)
Theorem self_move_run :
  exists st0 st',
    final (three 0%nat) init = Some st0 /\
    size st0 0%nat = 3 /\ capacity st0 0%nat = 3 /\
    values st0 0%nat = addr 1%positive 0 /\
    final self_move init = Some st' /\
    values st' 0%nat = nullptr /\ size st' 0%nat = 0 /\
    capacity st' 0%nat = 0 /\
    heap st' !! 1%positive = Some [10; 20; 30] /\ frees st' = 0%nat.
Proof.
  eexists. eexists. split; [vm_compute; reflexivity|].
  do 3 (split; [vm_compute; reflexivity|]).
  split; [vm_compute; reflexivity|]. vm_compute. done.
Qed.

(** C5, at [create(50, true); destroy(true)] on an array of capacity 100:
    the size is 0 and the capacity is still 100, not 50. *)
Lemma shrink_then_destroy_run :
  exists st',
    final shrink_then_destroy init = Some st' /\
    size st' 0%nat = 0 /\ capacity st' 0%nat = 100 /\
    capacity st' 0%nat <> 50.
Proof.
  eexists. split; [vm_compute; reflexivity|]. vm_compute.
  repeat split; discriminate.
Qed.

(** C7, at [a = b] for the well-formed arrays [a = {10, 20, 30}] and
    [b = {1, 2}]: [create(2, true)] stores no size, so the loop runs
    [a.size() = 3] times and reads [b[2]], outside the two elements of
    [b]; the assignment has no defined result, and so keeps nothing. *)
Theorem copy_assign_overread_run :
  inv st32 0%nat /\ inv st32 1%nat /\
  size st32 0%nat = 3 /\ size st32 1%nat = 2 /\
  create zeroed 0%nat (size st32 1%nat) true st32 = Some (tt, st32) /\
  elem st32 1%nat 2 = None /\
  copy_assign zeroed 0%nat 1%nat st32 = None.
Proof.
  split; [exact st32_inv0|]. split; [exact st32_inv1|].
  vm_compute. done.
Qed.

(** [create(3, false)] on the array [{10, 20, 30}] of capacity 3. *)
Lemma create_same_capacity_unpooled_witness :
  0 < capacity st3 0%nat /\
  create zeroed 0%nat (capacity st3 0%nat) false st3 = Some (tt, st3).
Proof.
  split; [reflexivity|].
  apply (create_same_capacity_unpooled zeroed st3 0%nat). reflexivity.
Defined.

(** [c = c] on the array [{10, 20, 30}]. *)
Lemma copy_assign_self_witness :
  inv st3 0%nat /\
  exists st',
    copy_assign zeroed 0%nat 0%nat st3 = Some (tt, st') /\
    size st' 0%nat = size st3 0%nat /\
    capacity st' 0%nat = capacity st3 0%nat /\
    (forall i, 0 <= i < size st3 0%nat ->
       elem st' 0%nat i = elem st3 0%nat i /\ is_Some (elem st3 0%nat i)) /\
    allocs st' = allocs st3 /\ frees st' = frees st3.
Proof.
  split; [exact st3_inv|].
  apply (copy_assign_self zeroed st3 0%nat). exact st3_inv.
Defined.

(** Moving the array [{1, 2}] into the array [{10, 20, 30}]. *)
Lemma move_takes_fields_witness :
  0%nat <> 1%nat /\
  (exists st',
     move_construct 0%nat 1%nat st32 = Some (tt, st') /\
     values st' 1%nat = nullptr /\ size st' 1%nat = 0 /\
     capacity st' 1%nat = 0 /\
     values st' 0%nat = values st32 1%nat /\
     size st' 0%nat = size st32 1%nat /\
     capacity st' 0%nat = capacity st32 1%nat /\
     forall i, elem st' 0%nat i = elem st32 1%nat i) /\
  (inv st32 0%nat ->
   exists st',
     move_assign 0%nat 1%nat st32 = Some (tt, st') /\
     values st' 1%nat = nullptr /\ size st' 1%nat = 0 /\
     capacity st' 1%nat = 0 /\
     values st' 0%nat = values st32 1%nat /\
     size st' 0%nat = size st32 1%nat /\
     capacity st' 0%nat = capacity st32 1%nat /\
     (inv st32 1%nat -> forall i, elem st' 0%nat i = elem st32 1%nat i)).
Proof.
  split; [discriminate|].
  apply (move_takes_fields st32 0%nat 1%nat). discriminate.
Defined.

(** [create(2, true); destroy(true); create(1, true)] on the array
    [{10, 20, 30}]. *)
Lemma destroy_then_pooled_create_witness :
  (inv st3 0%nat /\ 0 <= 2 /\ 1 <= 2) /\
  exists st1 st2 st3',
    create zeroed 0%nat 2 true st3 = Some (tt, st1) /\
    destroy 0%nat true st1 = Some (tt, st2) /\
    size st2 0%nat = 0 /\
    capacity st2 0%nat
    = (if true && (2 <? capacity st3 0%nat) then capacity st3 0%nat else 2) /\
    create zeroed 0%nat 1 true st2 = Some (tt, st3') /\
    allocs st3' = allocs st2 /\ frees st3' = frees st2 /\
    heap st3' = heap st2 /\ values st3' 0%nat = values st2 0%nat /\
    capacity st3' 0%nat = capacity st2 0%nat.
Proof.
  split; [split; [exact st3_inv|split; discriminate]|].
  apply (destroy_then_pooled_create zeroed st3 0%nat 2 1 true);
    [exact st3_inv|discriminate|discriminate].
Defined.

(** [create(5, true)] on the array [{10, 20, 30}] keeps the invariant. *)
Lemma inv_preserved_witness :
  (0 <= 5 /\ inv st3 0%nat) /\
  exists st', create zeroed 0%nat 5 true st3 = Some (tt, st') /\ inv st' 0%nat.
Proof.
  split; [split; [discriminate|exact st3_inv]|].
  apply (proj1 (proj2 (inv_preserved zeroed)) st3 0%nat 5 true);
    [discriminate|exact st3_inv].
Defined.

End Runs.

(** * Further properties *)

(** ** Slices, [view] and [fill] *)

Section SliceMore.
Context {T : Type}.
Implicit Types (h : gmap loc (list T)) (s : Slice.slice) (p : ptr).

Lemma read_at_offset h l off b i :
  h !! l = Some b -> 0 <= off + i ->
  read h (addr l off) i = b !! Z.to_nat (off + i).
Proof.
  intros Hb Hi. unfold read. rewrite Hb.
  by rewrite (proj2 (Z.leb_le 0 (off + i))) by lia.
Qed.

Lemma write_at_offset h l off b i (v : T) :
  h !! l = Some b -> 0 <= off + i < Z.of_nat (length b) ->
  write h (addr l off) i v = Some (<[l := <[Z.to_nat (off + i) := v]> b]> h).
Proof.
  intros Hb Hi. unfold write. rewrite Hb.
  rewrite (proj2 (Z.leb_le 0 (off + i))) by lia.
  by rewrite (proj2 (Z.ltb_lt (off + i) _)) by lia.
Qed.

Lemma ptr_add_assoc p a c : ptr_add (ptr_add p a) c = ptr_add p (a + c).
Proof. destruct p as [|l off]; simpl; [done|]. f_equal. lia. Qed.

Lemma ptr_add_zero p : ptr_add p 0 = p.
Proof. destruct p as [|l off]; simpl; [done|]. f_equal. lia. Qed.

(** A sub-range of a valid pointer range is valid. *)
Lemma valid_sub_range h p n a b :
  Slice.valid h (Slice.of_ptr p n) ->
  is_uint64 n -> 0 <= a -> a <= b -> b <= n ->
  Slice.valid h (Slice.of_ptr (ptr_add p a) (wrap64 (b - a))).
Proof.
  intros Hv Hn Ha Hab Hb.
  rewrite wrap64_small by (unfold is_uint64 in *; lia).
  unfold Slice.valid, Slice.of_ptr in *; simpl in *.
  destruct p as [|l off]; simpl; [lia|].
  destruct Hv as (blk & Hblk & Hoff & _ & Hlen).
  exists blk. repeat split; try done; lia.
Qed.

(** X1. Narrowing a valid slice inside its bounds gives a valid slice:
    [s(a, b)] for [0 <= a <= b <= s.size()] is null and empty, or lies
    inside the block that [s] lies in. *)
Theorem narrow_keeps_valid h s a b :
  Slice.valid h s -> is_uint64 (Slice.size s) ->
  0 <= a -> a <= b -> b <= Slice.size s ->
  Slice.valid h (Slice.narrow s a b).
Proof.
  intros Hv Hs Ha Hab Hb. unfold Slice.narrow.
  apply (valid_sub_range h (Slice.m_values s) (Slice.size s)); done.
Qed.

(** X2. Narrowing composes: [s(a, b)(c, d)] is the slice [s(a + c, a + d)],
    whatever [b] is, and [s(0, s.size())] is [s] itself. *)
Theorem narrow_narrow s a b c d :
  Slice.narrow (Slice.narrow s a b) c d = Slice.narrow s (a + c) (a + d) /\
  (is_uint64 (Slice.size s) -> Slice.narrow s 0 (Slice.size s) = s).
Proof.
  split.
  - unfold Slice.narrow, Slice.of_ptr; simpl.
    rewrite ptr_add_assoc. do 2 f_equal. lia.
  - intros Hs. unfold Slice.narrow, Slice.of_ptr.
    rewrite ptr_add_zero, Z.sub_0_r, wrap64_small by done.
    by destruct s.
Qed.

(** X3. Narrowing does not check its bounds: for [end < start] the
    unsigned difference wraps, and [s(start, end)] has the size
    [2^64 - (start - end)], which is at least 1. *)
Theorem narrow_reversed_wraps s a b :
  is_uint64 a -> is_uint64 b -> b < a ->
  Slice.size (Slice.narrow s a b) = uint64_max - (a - b) /\
  0 < Slice.size (Slice.narrow s a b).
Proof.
  intros Ha Hb Hlt. unfold Slice.narrow, Slice.of_ptr, Slice.size; simpl.
  assert (Hw : wrap64 (b - a) = uint64_max - (a - b)).
  { unfold wrap64. replace (b - a) with (uint64_max - (a - b) + (-1) * uint64_max)
      by lia.
    rewrite Z.mod_add by (unfold uint64_max; lia).
    apply Z.mod_small. unfold is_uint64 in *. lia. }
  rewrite Hw. unfold is_uint64 in *. lia.
Qed.

(** X4. [view(values, start, end)] over a buffer of [n] readable elements,
    for [0 <= start <= end <= n], is a valid slice of [end - start]
    elements whose element [i] is [values[start + i]]; and
    [view(values, n)] is the slice of all [n] elements. *)
Theorem view_spec h p n a b :
  Slice.valid h (Slice.view_count p n) -> is_uint64 n ->
  0 <= a -> a <= b -> b <= n ->
  Slice.size (Slice.view p a b) = b - a /\
  Slice.valid h (Slice.view p a b) /\
  (forall i, 0 <= i < b - a ->
     Slice.at_ h (Slice.view p a b) i = read h p (a + i) /\
     is_Some (read h p (a + i))) /\
  Slice.size (Slice.view_count p n) = n /\
  (forall i, Slice.at_ h (Slice.view_count p n) i = read h p i).
Proof.
  intros Hv Hn Ha Hab Hb.
  assert (Hsz : Slice.size (Slice.view p a b) = b - a).
  { unfold Slice.view, Slice.of_ptr, Slice.size; simpl.
    apply wrap64_small. unfold is_uint64 in *. lia. }
  assert (Hval : Slice.valid h (Slice.view p a b)).
  { unfold Slice.view. by apply (valid_sub_range h p n). }
  split; [done|]. split; [done|]. split; [|done].
  intros i Hi.
  assert (Hat : Slice.at_ h (Slice.view p a b) i = read h p (a + i)).
  { unfold Slice.at_, Slice.view, Slice.to_ptr, Slice.of_ptr; simpl.
    apply read_ptr_add. }
  split; [done|]. rewrite <- Hat. apply valid_at_defined; [done|lia].
Qed.

(** The loop of [fill] inside one block: the cells of the range hold the
    value, the other cells of the block are as before. *)
Lemma fill_loop_block s (v : T) l off k : forall i h b,
  Slice.m_values s = addr l off -> h !! l = Some b ->
  0 <= off + i -> off + i + Z.of_nat k <= Z.of_nat (length b) ->
  exists b',
    Slice.fill_loop s v i k h = Some (<[l := b']> h) /\
    length b' = length b /\
    (forall j, (Z.to_nat (off + i) <= j < Z.to_nat (off + i) + k)%nat ->
       b' !! j = Some v) /\
    (forall j, ~ (Z.to_nat (off + i) <= j < Z.to_nat (off + i) + k)%nat ->
       b' !! j = b !! j).
Proof.
  induction k as [|k IH]; intros i h b Hp Hb Hi Hk; simpl.
  - exists b. rewrite insert_id by done. repeat split; try done.
    intros j Hj. lia.
  - unfold Slice.set_at, Slice.to_ptr. rewrite Hp.
    rewrite (write_at_offset h l off b) by (done || lia).
    destruct (IH (i + 1) (<[l := <[Z.to_nat (off + i) := v]> b]> h)
                (<[Z.to_nat (off + i) := v]> b))
      as (b' & Heq & Hlen & Hin & Hout); try done; try lia.
    + apply lookup_insert_eq.
    + rewrite length_insert. lia.
    + exists b'. rewrite Heq, insert_insert_eq.
      split; [done|]. split; [by rewrite Hlen, length_insert|].
      replace (Z.to_nat (off + (i + 1))) with (S (Z.to_nat (off + i)))
        in Hin, Hout by lia.
      split.
      * intros j Hj. destruct (decide (j = Z.to_nat (off + i))) as [->|Hji].
        -- rewrite Hout by lia. apply list_lookup_insert_eq. lia.
        -- apply Hin. lia.
      * intros j Hj. rewrite Hout by lia.
        apply list_lookup_insert_ne. lia.
Qed.

(** [fill] on a valid slice: what it writes and what it leaves. *)
Lemma fill_on_valid h s (v : T) :
  Slice.valid h s ->
  exists h',
    Slice.fill s v h = Some h' /\
    (forall i, 0 <= i < Slice.size s -> Slice.at_ h' s i = Some v) /\
    (forall p i,
       (forall j, 0 <= j < Slice.size s ->
          ptr_add p i <> ptr_add (Slice.m_values s) j) ->
       read h' p i = read h p i) /\
    (forall l, length <$> h' !! l = length <$> h !! l) /\
    Slice.valid h' s.
Proof.
  unfold Slice.valid, Slice.fill, Slice.at_, Slice.to_ptr, Slice.size.
  destruct (Slice.m_values s) as [|l off] eqn:Hp.
  - intros ->. exists h. simpl. repeat split; try done. intros i Hi. lia.
  - intros (b & Hb & Hoff & Hsz & Hlen).
    destruct (fill_loop_block s v l off (Z.to_nat (Slice.m_size s)) 0 h b)
      as (b' & Heq & Hlen' & Hin & Hout); try done; try lia.
    exists (<[l := b']> h). split; [done|].
    split; [|split; [|split]].
    + intros i Hi.
      rewrite (read_at_offset _ l off b') by (try apply lookup_insert_eq; lia).
      apply Hin. lia.
    + intros p i Hout'. destruct p as [|l' off']; [done|]. simpl in Hout'.
      destruct (decide (l' = l)) as [->|Hne].
      * destruct (Z_lt_le_dec (off' + i) 0) as [Hneg|Hpos].
        { unfold read. rewrite lookup_insert_eq, Hb.
          by rewrite (proj2 (Z.leb_gt 0 (off' + i))) by lia. }
        rewrite (read_at_offset _ l off' b') by (try apply lookup_insert_eq; lia).
        rewrite (read_at_offset _ l off' b) by done.
        apply Hout. intros Hj.
        apply (Hout' (off' + i - off)); [lia|]. f_equal. lia.
      * unfold read. by rewrite lookup_insert_ne.
    + intros l'. destruct (decide (l' = l)) as [->|Hne].
      * rewrite lookup_insert_eq, Hb. simpl. by rewrite Hlen'.
      * by rewrite lookup_insert_ne.
    + exists b'. rewrite lookup_insert_eq. repeat split; try done. lia.
Qed.

(** X5. [fill(s, v)] on a valid slice is defined; afterwards every element
    of [s] is [v], every cell that is not a cell of [s] reads as before,
    no block has changed its length, and [s] is still valid. *)
Theorem fill_spec h s (v : T) :
  Slice.valid h s ->
  exists h',
    Slice.fill s v h = Some h' /\
    (forall i, 0 <= i < Slice.size s -> Slice.at_ h' s i = Some v) /\
    (forall p i,
       (forall j, 0 <= j < Slice.size s ->
          ptr_add p i <> ptr_add (Slice.m_values s) j) ->
       read h' p i = read h p i) /\
    (forall l, length <$> h' !! l = length <$> h !! l) /\
    Slice.valid h' s.
Proof. apply fill_on_valid. Qed.

End SliceMore.

(** ** The variable-size array: construction, destruction and slices *)

Section DynArrayMore.
Import DynArray DynArray.Notations.
Context {T : Type} (uninit : loc -> nat -> T).
Implicit Types (st : state T) (o d c : obj) (p : ptr) (n m : Z).

Ltac proj_simpl :=
  cbn [objs heap allocs frees m_values m_size m_capacity].



Lemma fresh_block_lookup l n i :
  0 <= i < n -> fresh_block uninit l n !! Z.to_nat i = Some (uninit l (Z.to_nat i)).
Proof.
  intros Hi. unfold fresh_block. rewrite list_lookup_fmap.
  rewrite lookup_seq_lt by lia. done.
Qed.

(** A constructed object is default-constructed before the body of its
    constructor runs. *)
Lemma construct_fields st o :
  values (set_obj o default st) o = nullptr /\
  size (set_obj o default st) o = 0 /\
  capacity (set_obj o default st) o = 0.
Proof.
  unfold values, size, capacity, set_obj; simpl.
  by rewrite lookup_total_insert_eq.
Qed.


(** A well-formed array seen as a pointer range is a valid slice. *)
Lemma inv_range_valid st o :
  inv st o ->
  Slice.valid (heap st) (Slice.of_ptr (values st o) (size st o)).
Proof.
  intros Hi. unfold Slice.valid, Slice.of_ptr; simpl.
  destruct (inv_cases _ _ Hi) as [Hdef|(l & b & Hp & Hb & Hlen & _ & Hs)].
  - unfold values, size. by rewrite Hdef.
  - rewrite Hp. exists b. repeat split; try done; lia.
Qed.

(** [array(n)] when the allocator grants every request: the object is
    well-formed with size and capacity [n], one block is allocated unless
    [n] is 0, and no live block is touched.  The destructor run on this
    object gives back the heap that was there before the construction. *)
Lemma construct_sized_run st o n :
  0 <= n ->
  exists st',
    construct_sized uninit o n st = Some (tt, st') /\
    size st' o = n /\ capacity st' o = n /\ inv st' o /\
    allocs st' = (if n =? 0 then allocs st else S (allocs st)) /\
    frees st' = frees st /\
    (forall l b, heap st !! l = Some b -> heap st' !! l = Some b) /\
    exists st'',
      destructor o st' = Some (tt, st'') /\ heap st'' = heap st /\
      frees st'' = (if n =? 0 then frees st else S (frees st)).
Proof.
  intros Hn. unfold construct_sized, bind at 1, construct.
  destruct (construct_fields st o) as (Hp0 & Hs0 & Hc0).
  set (st0 := set_obj o default st) in *.
  destruct (decide (n = 0)) as [->|Hnz].
  - rewrite create_keep_eq by (by rewrite Hc0).
    exists st0. split; [done|]. split; [done|]. split; [done|].
    split; [apply inv_default_obj; unfold st0, set_obj; simpl;
            apply lookup_total_insert_eq|].
    split; [done|]. split; [done|]. split; [done|].
    exists st0. unfold destructor, bind, rd_values.
    fold (values st0 o). rewrite Hp0. done.
  - rewrite create_allocate_eq;
      [|rewrite Hc0; unfold must_reallocate;
        replace (n >? 0) with true
          by (symmetry; rewrite Z.gtb_ltb; apply Z.ltb_lt; lia);
        apply orb_true_r
       |by rewrite Hp0|lia].
    rewrite Hp0. subst st0. unfold set_obj.
    cbn [released freed objs heap allocs frees].
    set (l := fresh (dom (heap st))).
    assert (Hfresh : heap st !! l = None).
    { apply not_elem_of_dom. apply is_fresh. }
    replace (n =? 0) with false by (symmetry; apply Z.eqb_neq; lia).
    eexists. split; [done|].
    unfold size, capacity; proj_simpl.
    rewrite lookup_total_insert_eq; proj_simpl.
    split; [done|]. split; [done|].
    split.
    { unfold inv; proj_simpl. rewrite lookup_total_insert_eq; proj_simpl.
      repeat split; try lia.
      intros _. eexists _, _. split; [done|].
      split; [apply lookup_insert_eq|]. apply fresh_block_length. lia. }
    split; [done|]. split; [done|].
    split.
    { intros l' b Hb. rewrite lookup_insert_ne; [done|congruence]. }
    unfold destructor, bind, rd_values, delete_array; proj_simpl.
    rewrite lookup_total_insert_eq; proj_simpl.
    rewrite lookup_insert_eq; simpl.
    eexists. split; [done|]. proj_simpl.
    split; [by apply delete_insert_id|done].
Qed.



(** X9. The slice a well-formed array converts to is valid, has the
    array's size, and reads the array's elements. *)
Theorem to_slice_spec st o :
  inv st o ->
  Slice.valid (heap st) (to_slice st o) /\
  Slice.size (to_slice st o) = size st o /\
  (forall i, Slice.at_ (heap st) (to_slice st o) i = elem st o i) /\
  (forall i, 0 <= i < size st o -> is_Some (elem st o i)).
Proof.
  intros Hi. pose proof (inv_range_valid st o Hi) as Hv.
  split; [done|]. split; [done|]. split; [done|].
  intros i Hr. by apply (valid_at_defined _ (to_slice st o)).
Qed.

(** Writing into the block of a well-formed array keeps it well-formed. *)
Lemma inv_with_heap st o (h : gmap loc (list T)) :
  (forall l, length <$> h !! l = length <$> heap st !! l) ->
  inv st o -> inv (with_heap st h) o.
Proof. intros Hl. by apply inv_shape. Qed.

(** X10. A slice of an array aliases the array: for a well-formed array
    [d] and [0 <= a <= b <= d.size()], the write [d(a, b)[i] = v] with
    [0 <= i < b - a] is defined, makes [d[a + i]] equal to [v], leaves
    every other element of [d] as it was and keeps [d] well-formed. *)
Theorem narrow_write_through st o a b i (v : T) :
  inv st o -> 0 <= a -> a <= b -> b <= size st o -> 0 <= i < b - a ->
  exists h',
    Slice.set_at (heap st) (narrow st o a b) i v = Some h' /\
    elem (with_heap st h') o (a + i) = Some v /\
    (forall j, j <> a + i -> elem (with_heap st h') o j = elem st o j) /\
    inv (with_heap st h') o.
Proof.
  intros Hi Ha Hab Hb Hr.
  destruct (inv_cases _ _ Hi) as [Hdef|(l & blk & Hp & Hblk & Hlen & _ & Hs)].
  { unfold size in Hb. rewrite Hdef in Hb. simpl in Hb. lia. }
  unfold Slice.set_at, narrow, Slice.to_ptr, Slice.of_ptr.
  cbn [Slice.m_values]. rewrite Hp. cbn [ptr_add].
  rewrite (write_at_offset _ l (0 + a) blk) by (done || lia).
  eexists. split; [done|].
  assert (Hval : values (with_heap st (<[l := <[Z.to_nat (0 + a + i) := v]> blk]>
                                          (heap st))) o = addr l 0) by done.
  unfold elem. rewrite Hval, Hp. unfold with_heap; proj_simpl.
  split; [|split].
  - rewrite (read_block _ l (<[Z.to_nat (0 + a + i) := v]> blk))
      by (try apply lookup_insert_eq; lia).
    replace (0 + a + i) with (a + i) by lia.
    apply list_lookup_insert_eq. lia.
  - intros j Hj. destruct (Z_lt_le_dec j 0) as [Hneg|Hpos].
    { unfold read. rewrite lookup_insert_eq, Hblk, Z.add_0_l.
      by rewrite (proj2 (Z.leb_gt 0 j)) by lia. }
    rewrite (read_block _ l (<[Z.to_nat (0 + a + i) := v]> blk))
      by (try apply lookup_insert_eq; lia).
    rewrite (read_block _ l blk) by done.
    apply list_lookup_insert_ne. lia.
  - apply (inv_with_heap st o); [|done].
    intros l'. destruct (decide (l' = l)) as [->|Hne].
    + rewrite lookup_insert_eq, Hblk; simpl. by rewrite length_insert.
    + by rewrite lookup_insert_ne.
Qed.

(** X11. [fill] on the slice of a well-formed array is defined and makes
    every element of the array equal to the value; the array stays
    well-formed, with the same pointer, size and capacity. *)
Theorem fill_array st o (v : T) :
  inv st o ->
  exists h',
    Slice.fill (to_slice st o) v (heap st) = Some h' /\
    (forall i, 0 <= i < size st o -> elem (with_heap st h') o i = Some v) /\
    inv (with_heap st h') o /\
    objs (with_heap st h') = objs st.
Proof.
  intros Hi.
  destruct (fill_on_valid (heap st) (to_slice st o) v (inv_range_valid st o Hi))
    as (h' & Hrun & Hel & _ & Hshape & _).
  exists h'. split; [done|]. split; [|split; [|done]].
  - intros i Hr. by apply Hel.
  - by apply inv_with_heap.
Qed.

(** X12. Releasing twice is releasing once: after [destroy(false)] on a
    well-formed array, another [destroy(false)], a [destroy(true)] and
    the destructor are all defined and change nothing, so no block is
    released a second time. *)
Theorem destroy_release_again st o :
  inv st o ->
  exists st',
    destroy o false st = Some (tt, st') /\
    destroy o false st' = Some (tt, st') /\
    destroy o true st' = Some (tt, st') /\
    destructor o st' = Some (tt, st').
Proof.
  intros Hi. eexists. split; [by apply destroy_release_eq, inv_deletable|].
  split; [|split].
  - rewrite destroy_release_eq;
      unfold values; proj_simpl; rewrite lookup_total_insert_eq; [|done].
    simpl. by rewrite insert_insert_eq.
  - rewrite destroy_pool_eq. unfold values, capacity, set_obj; proj_simpl.
    rewrite lookup_total_insert_eq; simpl. by rewrite insert_insert_eq.
  - unfold destructor, bind, rd_values; proj_simpl.
    by rewrite lookup_total_insert_eq.
Qed.

(** X13. Ownership moves with the buffer: after [d = move(c)] between two
    distinct well-formed arrays, the destructor of [c] is defined and
    changes nothing, and the destructor of [d] releases the block that
    [c] had. *)
Theorem moved_from_owns_nothing st d c :
  d <> c -> inv st d -> inv st c ->
  exists st1 st2,
    move_assign d c st = Some (tt, st1) /\
    destructor c st1 = Some (tt, st1) /\
    destructor d st1 = Some (tt, st2) /\
    heap st2 = released (values st c) (heap_after_move st d c) /\
    frees st2 = (freed (values st c) + frees_after_move st d c)%nat /\
    (forall l off, values st c = addr l off -> heap st2 !! l = None).
Proof.
  intros Hdc Hd Hc.
  pose proof (move_assign_eq st d c Hdc (inv_deletable st d Hd)) as Hmove.
  destruct (inv_cases _ _ Hc) as [Hdef|(lc & bc & Hpc & Hbc & _)].
  - assert (Hp : values st c = nullptr) by (unfold values; by rewrite Hdef).
    eexists. eexists. split; [exact Hmove|].
    unfold destructor, bind, rd_values, delete_array; proj_simpl.
    rewrite lookup_total_insert_eq.
    rewrite lookup_total_insert_ne, lookup_total_insert_eq by done.
    fold (values st c). rewrite Hp.
    split; [done|]. split; [done|]. by repeat split.
  - eexists. eexists. split; [exact Hmove|].
    unfold destructor, bind, rd_values, delete_array; proj_simpl.
    rewrite lookup_total_insert_eq.
    rewrite lookup_total_insert_ne, lookup_total_insert_eq by done.
    fold (values st c). rewrite Hpc.
    rewrite (heap_after_move_source st d c lc 0 Hd Hc Hpc), Hbc; simpl.
    split; [done|]. split; [done|]. proj_simpl.
    split; [done|]. split; [done|].
    intros l off [= <- <-]. apply lookup_delete_eq.
Qed.

(** A [create] that reallocates, when the allocator grants the request:
    the array gets a block of exactly [n] default-initialised elements
    with size and capacity [n], through one allocation, and its old
    buffer is released. *)
Lemma create_reallocates_run st o n use_pool :
  inv st o -> 0 < n ->
  capacity st o < n \/ (n < capacity st o /\ use_pool = false) ->
  exists st' l,
    create uninit o n use_pool st = Some (tt, st') /\
    values st' o = addr l 0 /\ size st' o = n /\ capacity st' o = n /\
    heap st' = <[l := fresh_block uninit l n]>
                 (released (values st o) (heap st)) /\
    released (values st o) (heap st) !! l = None /\
    (forall i, 0 <= i < n -> elem st' o i = Some (uninit l (Z.to_nat i))) /\
    allocs st' = S (allocs st) /\
    frees st' = (freed (values st o) + frees st)%nat.
Proof.
  intros Hi Hn Hcase.
  assert (Hm : must_reallocate n (capacity st o) use_pool = true).
  { unfold must_reallocate. destruct Hcase as [Hgt|[Hlt ->]].
    - replace (n >? capacity st o) with true
        by (symmetry; rewrite Z.gtb_ltb; apply Z.ltb_lt; lia).
      apply orb_true_r.
    - by rewrite (proj2 (Z.ltb_lt _ _) Hlt). }
  rewrite create_allocate_eq by (try apply inv_deletable; done).
  cbv zeta. set (h := released (values st o) (heap st)).
  set (l := fresh (dom h)).
  exists (mkState (<[o := mk (addr l 0) n n]> (objs st))
                  (<[l := fresh_block uninit l n]> h)
                  (S (allocs st)) (freed (values st o) + frees st)), l.
  split; [done|].
  unfold values at 1, size, capacity, elem, values; proj_simpl.
  rewrite lookup_total_insert_eq; proj_simpl.
  split; [done|]. split; [done|]. split; [done|]. split; [done|].
  split; [apply not_elem_of_dom, is_fresh|].
  split; [|done].
  intros i Hr.
  rewrite (read_block _ l (fresh_block uninit l n))
    by (try apply lookup_insert_eq; lia).
  by apply fresh_block_lookup.
Qed.




(** *** With an allocator that can refuse *)

Variable grants : state T -> Z -> bool.

(** [destroy(false)] on a default-constructed object changes nothing. *)
Lemma destroy_release_default st o :
  destroy o false (set_obj o default st) = Some (tt, set_obj o default st).
Proof.
  rewrite destroy_release_eq;
    unfold values, set_obj; proj_simpl; rewrite lookup_total_insert_eq;
    [|done].
  simpl. by rewrite insert_insert_eq.
Qed.

(** When the request is granted, or nothing is requested, [create] runs
    as with an allocator that never refuses. *)
Lemma create_may_throw_granted st st1 o n use_pool :
  destroy o false st = Some (tt, st1) ->
  (0 < n -> grants st1 n = true) ->
  create_may_throw uninit grants o n use_pool st
  = returned (create uninit o n use_pool st).
Proof.
  intros Hd Hg. unfold create_may_throw, create, bind at 1, rd_capacity.
  destruct (must_reallocate n (m_capacity (objs st !!! o)) use_pool); [|done].
  unfold bind at 1. rewrite Hd.
  destruct (n >? 0) eqn:Hn; [|done].
  rewrite Hg; [done|]. rewrite Z.gtb_ltb in Hn. by apply Z.ltb_lt.
Qed.

(** When the request is refused, [create] throws in the state that
    [destroy(false)] left. *)
Lemma create_may_throw_refused st st1 o n use_pool :
  must_reallocate n (capacity st o) use_pool = true ->
  destroy o false st = Some (tt, st1) ->
  0 < n -> grants st1 n = false ->
  create_may_throw uninit grants o n use_pool st = Throws st1.
Proof.
  intros Hm Hd Hn Hg. unfold create_may_throw. unfold capacity in Hm.
  rewrite Hm, Hd.
  replace (n >? 0) with true
    by (symmetry; rewrite Z.gtb_ltb; apply Z.ltb_lt; lia).
  by rewrite Hg.
Qed.

(** X6. [array(n)] for a [uint64_t] [n] allocates exactly [n] elements.
    When [n] is 0 or the allocator grants [n] elements, the constructor
    returns, the object is well-formed with size and capacity [n], one
    block is allocated unless [n] is 0, no live block is touched, and the
    destructor run on this object gives back the heap that was there
    before the construction.  When the allocator refuses, the constructor
    throws out of a default-constructed object, with the heap and the
    counters of the allocator as they were. *)
Theorem construct_sized_spec st o n :
  is_uint64 n ->
  (n = 0 \/ grants (set_obj o default st) n = true ->
   exists st',
     construct_sized_may_throw uninit grants o n st = Returns st' /\
     size st' o = n /\ capacity st' o = n /\ inv st' o /\
     allocs st' = (if n =? 0 then allocs st else S (allocs st)) /\
     frees st' = frees st /\
     (forall l b, heap st !! l = Some b -> heap st' !! l = Some b) /\
     exists st'',
       destructor o st' = Some (tt, st'') /\ heap st'' = heap st /\
       frees st'' = (if n =? 0 then frees st else S (frees st))) /\
  (0 < n -> grants (set_obj o default st) n = false ->
   construct_sized_may_throw uninit grants o n st
   = Throws (set_obj o default st) /\
   objs (set_obj o default st) !!! o = default /\
   heap (set_obj o default st) = heap st /\
   allocs (set_obj o default st) = allocs st /\
   frees (set_obj o default st) = frees st).
Proof.
  intros [Hn _]. split.
  - intros Hg.
    destruct (construct_sized_run st o n Hn) as (st' & Hrun & Hrest).
    exists st'. split; [|exact Hrest].
    unfold construct_sized_may_throw, construct.
    rewrite (create_may_throw_granted _ (set_obj o default st));
      [|apply destroy_release_default|intros Hpos; destruct Hg; [lia|done]].
    unfold construct_sized, bind at 1, construct in Hrun. by rewrite Hrun.
  - intros Hpos Hg. split.
    + unfold construct_sized_may_throw, construct.
      apply create_may_throw_refused; try done.
      * destruct (construct_fields st o) as (_ & _ & ->).
        unfold must_reallocate.
        replace (n >? 0) with true
          by (symmetry; rewrite Z.gtb_ltb; apply Z.ltb_lt; lia).
        apply orb_true_r.
      * apply destroy_release_default.
    + unfold set_obj; proj_simpl. by rewrite lookup_total_insert_eq.
Qed.

(** X14. A [create] that reallocates keeps no element.  For a [uint64_t]
    [n > 0] that exceeds the capacity, or is below it with pooling off,
    [create] first runs [destroy(false)].  When the allocator then grants
    [n] elements, [create] returns and the array has a block of exactly
    [n] default-initialised elements with size and capacity [n], through
    one allocation, its old buffer released.  When the allocator refuses,
    [create] throws with the old buffer already released and the array
    empty: null pointer, size 0, capacity 0. *)
Theorem create_reallocates st o n use_pool :
  inv st o -> is_uint64 n -> 0 < n ->
  capacity st o < n \/ (n < capacity st o /\ use_pool = false) ->
  exists st1,
    destroy o false st = Some (tt, st1) /\
    (grants st1 n = true ->
     exists st' l,
       create_may_throw uninit grants o n use_pool st = Returns st' /\
       values st' o = addr l 0 /\ size st' o = n /\ capacity st' o = n /\
       heap st' = <[l := fresh_block uninit l n]>
                    (released (values st o) (heap st)) /\
       released (values st o) (heap st) !! l = None /\
       (forall i, 0 <= i < n -> elem st' o i = Some (uninit l (Z.to_nat i))) /\
       allocs st' = S (allocs st) /\
       frees st' = (freed (values st o) + frees st)%nat) /\
    (grants st1 n = false ->
     create_may_throw uninit grants o n use_pool st = Throws st1 /\
     values st1 o = nullptr /\ size st1 o = 0 /\ capacity st1 o = 0 /\
     heap st1 = released (values st o) (heap st) /\
     allocs st1 = allocs st /\
     frees st1 = (freed (values st o) + frees st)%nat).
Proof.
  intros Hi Hu Hn Hcase.
  pose proof (destroy_release_eq st o (inv_deletable st o Hi)) as Hd.
  eexists. split; [exact Hd|]. split.
  - intros Hg.
    destruct (create_reallocates_run st o n use_pool Hi Hn Hcase)
      as (st' & l & Hrun & Hrest).
    exists st', l. split; [|exact Hrest].
    rewrite (create_may_throw_granted _ _ _ _ _ Hd) by (intros _; exact Hg).
    by rewrite Hrun.
  - intros Hg. split.
    + apply create_may_throw_refused; try done.
      unfold must_reallocate. destruct Hcase as [Hgt|[Hlt ->]].
      * replace (n >? capacity st o) with true
          by (symmetry; rewrite Z.gtb_ltb; apply Z.ltb_lt; lia).
        apply orb_true_r.
      * by rewrite (proj2 (Z.ltb_lt _ _) Hlt).
    + unfold values at 1, size, capacity; proj_simpl.
      by rewrite lookup_total_insert_eq.
Qed.

End DynArrayMore.

(** ** The fixed-size array *)

Section FixedMore.
Context {T : Type} (size_u : Z).
Implicit Types (h : gmap loc (list T)) (a : loc) (p : ptr).

(** The loop of [copy] from a source range in another block. *)
Lemma fixed_copy_loop a lc off k : forall i h ba bc,
  a <> lc -> h !! a = Some ba -> h !! lc = Some bc ->
  0 <= i -> 0 <= off ->
  i + Z.of_nat k <= Z.of_nat (length ba) ->
  off + i + Z.of_nat k <= Z.of_nat (length bc) ->
  exists ba',
    FixedArray.copy_loop a (addr lc off) i k h = Some (<[a := ba']> h) /\
    length ba' = length ba /\
    (forall j, (Z.to_nat i <= j < Z.to_nat i + k)%nat ->
       ba' !! j = bc !! (Z.to_nat off + j)%nat) /\
    (forall j, ~ (Z.to_nat i <= j < Z.to_nat i + k)%nat -> ba' !! j = ba !! j).
Proof.
  induction k as [|k IH]; intros i h ba bc Hne Hba Hbc Hi Hoff Hka Hkc;
    cbn [FixedArray.copy_loop].
  - exists ba. rewrite insert_id by done. repeat split; try done.
    intros j Hj. lia.
  - destruct (lookup_lt_is_Some_2 bc (Z.to_nat (off + i))) as [v Hv]; [lia|].
    rewrite (read_at_offset _ lc off bc) by (done || lia). rewrite Hv.
    unfold FixedArray.m_values.
    rewrite (write_in_block _ _ ba) by (done || lia).
    destruct (IH (i + 1) (<[a := <[Z.to_nat i := v]> ba]> h)
                (<[Z.to_nat i := v]> ba) bc)
      as (ba' & Heq & Hlen & Hin & Hout); try done; try lia.
    + apply lookup_insert_eq.
    + by rewrite lookup_insert_ne.
    + rewrite length_insert. lia.
    + exists ba'. unfold FixedArray.m_values in Heq.
      rewrite Heq, insert_insert_eq.
      split; [done|]. split; [by rewrite Hlen, length_insert|].
      split.
      * intros j Hj. destruct (decide (j = Z.to_nat i)) as [->|Hji].
        -- rewrite Hout by lia. rewrite list_lookup_insert_eq by lia.
           rewrite <- Hv. f_equal. lia.
        -- apply Hin. lia.
      * intros j Hj. rewrite Hout by lia.
        apply list_lookup_insert_ne. lia.
Qed.

(** X15. Assigning a buffer of [size_u] readable elements that lies in
    another block to a fixed-size array copies it: the assignment is
    defined, element [i] of the array is element [i] of the buffer for
    every [i < size_u], every other block is as before, and the array
    still has its [size_u] elements. *)
Theorem fixed_assign_spec h a p :
  0 < size_u ->
  FixedArray.stored size_u h a ->
  Slice.valid h (Slice.of_ptr p size_u) ->
  (forall off, p <> addr a off) ->
  exists h',
    FixedArray.assign size_u a p h = Some h' /\
    (forall i, 0 <= i < FixedArray.size size_u a ->
       FixedArray.elem h' a i = read h p i /\ is_Some (read h p i)) /\
    (forall l, l <> a -> h' !! l = h !! l) /\
    FixedArray.stored size_u h' a.
Proof.
  intros Hpos (ba & Hba & Hlena) Hv Hsep.
  unfold Slice.valid, Slice.of_ptr in Hv; simpl in Hv.
  destruct p as [|lc off]; [lia|].
  destruct Hv as (bc & Hbc & Hoff & _ & Hlenc).
  assert (Hne : a <> lc) by (intros ->; by apply (Hsep off)).
  destruct (fixed_copy_loop a lc off (Z.to_nat size_u) 0 h ba bc)
    as (ba' & Hrun & Hlen & Hin & Hout); try done; try lia.
  exists (<[a := ba']> h). split; [done|].
  unfold FixedArray.size, FixedArray.elem, FixedArray.m_values.
  split; [|split].
  - intros i Hi.
    rewrite (read_at_offset _ a 0 ba') by (try apply lookup_insert_eq; lia).
    rewrite (read_at_offset _ lc off bc) by (done || lia).
    rewrite Z.add_0_l, Hin by lia.
    replace (Z.to_nat off + Z.to_nat i)%nat with (Z.to_nat (off + i)) by lia.
    split; [done|]. apply lookup_lt_is_Some. lia.
  - intros l Hl. by rewrite lookup_insert_ne.
  - exists ba'. split; [apply lookup_insert_eq|]. by rewrite Hlen.
Qed.

(** X16. A fixed-size array converts to a valid slice of [size_u]
    elements that reads the array, and its narrowing [a(s, e)] for
    [0 <= s <= e <= size_u] is a valid slice of [e - s] elements whose
    element [i] is [a[s + i]]. *)
Theorem fixed_slices h a :
  is_uint64 size_u ->
  FixedArray.stored size_u h a ->
  Slice.valid h (FixedArray.to_slice size_u a) /\
  Slice.size (FixedArray.to_slice size_u a) = FixedArray.size size_u a /\
  (forall i, Slice.at_ h (FixedArray.to_slice size_u a) i
             = FixedArray.elem h a i) /\
  (forall s e, 0 <= s -> s <= e -> e <= size_u ->
     Slice.valid h (FixedArray.narrow a s e) /\
     Slice.size (FixedArray.narrow a s e) = e - s /\
     forall i, Slice.at_ h (FixedArray.narrow a s e) i
               = FixedArray.elem h a (s + i)).
Proof.
  intros Hu (ba & Hba & Hlen).
  assert (Hv : Slice.valid h (FixedArray.to_slice size_u a)).
  { unfold Slice.valid, FixedArray.to_slice, FixedArray.m_values; simpl.
    exists ba. unfold is_uint64 in Hu. repeat split; try done; lia. }
  split; [done|]. split; [done|]. split; [done|].
  intros s e Hs Hse He. split; [|split].
  - unfold FixedArray.narrow.
    by apply (valid_sub_range h (FixedArray.m_values a) size_u).
  - unfold FixedArray.narrow, Slice.of_ptr, Slice.size; simpl.
    apply wrap64_small. unfold is_uint64 in *. lia.
  - intros i. unfold Slice.at_, FixedArray.narrow, FixedArray.elem,
      Slice.to_ptr, Slice.of_ptr; cbn [Slice.m_values].
    apply read_ptr_add.
Qed.

End FixedMore.

(** ** Concrete runs of the further properties *)

Section MoreRuns.
Import DynArray DynArray.Notations Scenario.

Lemma view3_valid : Slice.valid raw3 view3.
Proof. exists [10; 20; 30]. vm_compute. repeat split; discriminate. Qed.


Lemma raw33_stored : FixedArray.stored 3 raw33 2%positive.
Proof. exists [0; 0; 0]. by vm_compute. Qed.

Lemma raw33_view3_valid : Slice.valid raw33 (Slice.of_ptr (addr 1%positive 0) 3).
Proof. exists [10; 20; 30]. vm_compute. repeat split; discriminate. Qed.

Lemma uint64_three : is_uint64 3.
Proof. vm_compute. split; [discriminate|reflexivity]. Qed.

Lemma uint64_one : is_uint64 1.
Proof. vm_compute. split; [discriminate|reflexivity]. Qed.

(** The narrowing [s(1, 3)] of the slice over [{10, 20, 30}]. *)
Lemma narrow_keeps_valid_witness :
  (Slice.valid raw3 view3 /\ is_uint64 (Slice.size view3)
   /\ 0 <= 1 /\ 1 <= 3 /\ 3 <= Slice.size view3) /\
  Slice.valid raw3 (Slice.narrow view3 1 3).
Proof.
  split.
  - split; [exact view3_valid|]. split; [exact uint64_three|].
    repeat split; discriminate.
  - apply (narrow_keeps_valid raw3 view3 1 3);
      [exact view3_valid|exact uint64_three|discriminate..].
Defined.

Lemma narrow_narrow_witness :
  Slice.narrow (Slice.narrow view3 1 3) 0 1 = Slice.narrow view3 (1 + 0) (1 + 1).
Proof. exact (proj1 (narrow_narrow view3 1 3 0 1)). Defined.

(** The reversed narrowing [s(3, 1)]. *)
Lemma narrow_reversed_wraps_witness :
  (is_uint64 3 /\ is_uint64 1 /\ 1 < 3) /\
  Slice.size (Slice.narrow view3 3 1) = uint64_max - (3 - 1) /\
  0 < Slice.size (Slice.narrow view3 3 1).
Proof.
  split.
  - split; [exact uint64_three|]. split; [exact uint64_one|reflexivity].
  - apply (narrow_reversed_wraps view3 3 1);
      [exact uint64_three|exact uint64_one|reflexivity].
Defined.

(** [view(p, 1, 3)] over the buffer [{10, 20, 30}]. *)
Lemma view_spec_witness :
  (Slice.valid raw3 (Slice.view_count (addr 1%positive 0) 3) /\ is_uint64 3) /\
  Slice.size (Slice.view (addr 1%positive 0) 1 3) = 3 - 1 /\
  Slice.valid raw3 (Slice.view (addr 1%positive 0) 1 3).
Proof.
  split; [split; [exact view3_valid|exact uint64_three]|].
  destruct (view_spec raw3 (addr 1%positive 0) 3 1 3) as (H1 & H2 & _);
    [exact view3_valid|exact uint64_three|discriminate..|].
  exact (conj H1 H2).
Defined.

(** [fill(s, 7)] on the slice over [{10, 20, 30}]. *)
Lemma fill_spec_witness :
  Slice.valid raw3 view3 /\
  exists h',
    Slice.fill view3 7 raw3 = Some h' /\
    forall i, 0 <= i < Slice.size view3 -> Slice.at_ h' view3 i = Some 7.
Proof.
  split; [exact view3_valid|].
  destruct (fill_spec raw3 view3 7 view3_valid) as (h' & H1 & H2 & _).
  exists h'. exact (conj H1 H2).
Defined.

(** [array<int> b(2);] beside the array [{10, 20, 30}], with an
    allocator that grants the two elements. *)
Lemma construct_sized_spec_witness :
  is_uint64 2 /\
  exists st',
    construct_sized_may_throw zeroed grants1000 1%nat 2 st3 = Returns st' /\
    size st' 1%nat = 2 /\ capacity st' 1%nat = 2.
Proof.
  assert (Hu : is_uint64 2) by (vm_compute; split; [discriminate|reflexivity]).
  split; [exact Hu|].
  destruct (proj1 (construct_sized_spec zeroed grants1000 st3 1%nat 2 Hu))
    as (st' & H1 & H2 & H3 & _); [right; reflexivity|].
  exists st'. exact (conj H1 (conj H2 H3)).
Defined.



Lemma to_slice_spec_witness :
  inv st3 0%nat /\
  Slice.valid (heap st3) (to_slice st3 0%nat) /\
  Slice.size (to_slice st3 0%nat) = size st3 0%nat.
Proof.
  split; [exact st3_inv|].
  destruct (to_slice_spec st3 0%nat st3_inv) as (H1 & H2 & _).
  exact (conj H1 H2).
Defined.

(** [c(1, 3)[0] = 77] on the array [c = {10, 20, 30}]. *)
Lemma narrow_write_through_witness :
  (inv st3 0%nat /\ 0 <= 1 /\ 1 <= 3 /\ 3 <= size st3 0%nat /\ 0 <= 0 < 3 - 1) /\
  exists h',
    Slice.set_at (heap st3) (narrow st3 0%nat 1 3) 0 77 = Some h' /\
    elem (with_heap st3 h') 0%nat (1 + 0) = Some 77.
Proof.
  split.
  - split; [exact st3_inv|]. repeat split; discriminate.
  - destruct (narrow_write_through st3 0%nat 1 3 0 77)
      as (h' & H1 & H2 & _);
      [exact st3_inv|discriminate|discriminate|discriminate
      |split; [discriminate|reflexivity]|].
    exists h'. exact (conj H1 H2).
Defined.

Lemma fill_array_witness :
  inv st3 0%nat /\
  exists h',
    Slice.fill (to_slice st3 0%nat) 7 (heap st3) = Some h' /\
    forall i, 0 <= i < size st3 0%nat -> elem (with_heap st3 h') 0%nat i = Some 7.
Proof.
  split; [exact st3_inv|].
  destruct (fill_array st3 0%nat 7 st3_inv) as (h' & H1 & H2 & _).
  exists h'. exact (conj H1 H2).
Defined.

Lemma destroy_release_again_witness :
  inv st3 0%nat /\
  exists st',
    destroy 0%nat false st3 = Some (tt, st') /\
    destroy 0%nat false st' = Some (tt, st') /\
    destroy 0%nat true st' = Some (tt, st') /\
    destructor 0%nat st' = Some (tt, st').
Proof.
  split; [exact st3_inv|]. exact (destroy_release_again st3 0%nat st3_inv).
Defined.

(** [a = move(b)] for [a = {10, 20, 30}] and [b = {1, 2}]. *)
Lemma moved_from_owns_nothing_witness :
  (0%nat <> 1%nat /\ inv st32 0%nat /\ inv st32 1%nat) /\
  exists st1 st2,
    move_assign 0%nat 1%nat st32 = Some (tt, st1) /\
    destructor 1%nat st1 = Some (tt, st1) /\
    destructor 0%nat st1 = Some (tt, st2).
Proof.
  split; [split; [discriminate|split; [exact st32_inv0|exact st32_inv1]]|].
  destruct (moved_from_owns_nothing st32 0%nat 1%nat)
    as (st1 & st2 & H1 & H2 & H3 & _);
    [discriminate|exact st32_inv0|exact st32_inv1|].
  exists st1, st2. exact (conj H1 (conj H2 H3)).
Defined.

(** [c.create(5, true)] on the array [c = {10, 20, 30}], with an
    allocator that grants the five elements. *)
Lemma create_reallocates_witness :
  (inv st3 0%nat /\ is_uint64 5 /\ 0 < 5 /\
   (capacity st3 0%nat < 5 \/ (5 < capacity st3 0%nat /\ true = false))) /\
  exists st1 st' l,
    destroy 0%nat false st3 = Some (tt, st1) /\
    grants1000 st1 5 = true /\
    create_may_throw zeroed grants1000 0%nat 5 true st3 = Returns st' /\
    values st' 0%nat = addr l 0 /\ size st' 0%nat = 5 /\
    capacity st' 0%nat = 5.
Proof.
  assert (Hu : is_uint64 5) by (vm_compute; split; [discriminate|reflexivity]).
  split; [split; [exact st3_inv|split; [exact Hu|split; [reflexivity|left; reflexivity]]]|].
  destruct (create_reallocates zeroed grants1000 st3 0%nat 5 true)
    as (st1 & Hd & Hgranted & _);
    [exact st3_inv|exact Hu|reflexivity|left; reflexivity|].
  destruct (Hgranted eq_refl) as (st' & l & H1 & H2 & H3 & H4 & _).
  exists st1, st', l.
  exact (conj Hd (conj eq_refl (conj H1 (conj H2 (conj H3 H4))))).
Defined.

(** [c.create(2^62, true)] on the array [c = {10, 20, 30}], with an
    allocator that refuses: the call throws, the old block is released
    and the array is empty. *)
Example create_refused_run :
  exists st1,
    create_may_throw zeroed grants1000 0%nat (2 ^ 62) true st3 = Throws st1 /\
    values st1 0%nat = nullptr /\ size st1 0%nat = 0 /\
    capacity st1 0%nat = 0 /\
    heap st1 !! 1%positive = None /\ allocs st1 = 1%nat /\ frees st1 = 1%nat.
Proof. eexists. split; [vm_compute; reflexivity|]. by vm_compute. Qed.

(** [array<int> b(2^62);] with an allocator that refuses: the constructor
    throws and nothing is allocated. *)
Example construct_refused_run :
  exists st0,
    construct_sized_may_throw zeroed grants1000 1%nat (2 ^ 62) st3 = Throws st0 /\
    heap st0 = heap st3 /\ allocs st0 = allocs st3 /\ frees st0 = frees st3.
Proof. eexists. split; [vm_compute; reflexivity|]. by vm_compute. Qed.

(** [array<int,3> a; a = buf;] for the buffer [buf = {10, 20, 30}]. *)
Lemma fixed_assign_spec_witness :
  (0 < 3 /\ FixedArray.stored 3 raw33 2%positive
   /\ Slice.valid raw33 (Slice.of_ptr (addr 1%positive 0) 3)) /\
  exists h',
    FixedArray.assign 3 2%positive (addr 1%positive 0) raw33 = Some h' /\
    forall i, 0 <= i < FixedArray.size 3 2%positive ->
      FixedArray.elem h' 2%positive i = read raw33 (addr 1%positive 0) i
      /\ is_Some (read raw33 (addr 1%positive 0) i).
Proof.
  split; [split; [reflexivity|split; [exact raw33_stored|exact raw33_view3_valid]]|].
  destruct (fixed_assign_spec 3 raw33 2%positive (addr 1%positive 0))
    as (h' & H1 & H2 & _);
    [reflexivity|exact raw33_stored|exact raw33_view3_valid
    |intros off; discriminate|].
  exists h'. exact (conj H1 H2).
Defined.

Lemma fixed_slices_witness :
  (is_uint64 3 /\ FixedArray.stored 3 raw33 2%positive) /\
  Slice.valid raw33 (FixedArray.to_slice 3 2%positive) /\
  Slice.size (FixedArray.to_slice 3 2%positive) = FixedArray.size 3 2%positive.
Proof.
  split; [split; [exact uint64_three|exact raw33_stored]|].
  destruct (fixed_slices 3 raw33 2%positive uint64_three raw33_stored)
    as (H1 & H2 & _).
  exact (conj H1 H2).
Defined.


End MoreRuns.
